(** * doogie: the page index (src/page_index.cc)

    A shallow embedding of [PageIndex]: the autocomplete query builder, the
    visit recorder, the favicon upsert and the expiration sweep, over a
    relational model of the two tables the code talks to through SQL text
    and positional parameters. *)

From Stdlib Require Import ZArith List String Ascii Bool Lia.
From Stdlib Require Import DecimalString Sorted.
Import ListNotations.

Local Open Scope Z_scope.

(** ** QString

    A [QString] is a sequence of code units.  The model keeps it as a list of
    8-bit characters (the Latin-1 range of [QChar]); [qs] turns a literal
    into such a list. *)

Definition QString := list ascii.
Definition QByteArray := list ascii.

Definition qs (s : string) : QString := list_ascii_of_string s.

Definition space : ascii := " "%char.
Definition dquote : ascii := "034"%char.
Definition tab : ascii := "009"%char.

Module QStr.

(** [QChar::isSpace] on the Latin-1 range: U+0009..U+000D, U+0020, U+0085
    and U+00A0. *)
Definition isSpace (c : ascii) : bool :=
  let n := N_of_ascii c in
  ((9 <=? n) && (n <=? 13) || (n =? 32) || (n =? 133) || (n =? 160))%N.

Fixpoint dropSpaces (s : QString) : QString :=
  match s with
  | [] => []
  | c :: r => if isSpace c then dropSpaces r else s
  end.

(** [QString::trimmed()]: whitespace removed from the start and the end. *)
Definition trimmed (s : QString) : QString :=
  rev (dropSpaces (rev (dropSpaces s))).

(** [QString::replace(QChar before, const QString &after)]. *)
Definition replace (before : ascii) (after : QString) (s : QString) : QString :=
  flat_map (fun c => if Ascii.eqb c before then after else [c]) s.

(** [QString::split(QChar sep, QString::KeepEmptyParts)]. *)
Fixpoint splitKeep (sep : ascii) (s : QString) : list QString :=
  match s with
  | [] => [[]]
  | c :: r =>
      if Ascii.eqb c sep then [] :: splitKeep sep r
      else match splitKeep sep r with
           | p :: ps => (c :: p) :: ps
           | [] => [[c]]
           end
  end.

Definition nonEmpty (s : QString) : bool :=
  match s with [] => false | _ :: _ => true end.

(** [QString::split(QChar sep, QString::SkipEmptyParts)]. *)
Definition split (sep : ascii) (s : QString) : list QString :=
  filter nonEmpty (splitKeep sep s).

Fixpoint startsWith (s prefix : QString) {struct prefix} : bool :=
  match prefix, s with
  | [], _ => true
  | p :: ps, c :: r => Ascii.eqb c p && startsWith r ps
  | _ :: _, [] => false
  end.

Fixpoint indexOfFrom (s needle : QString) (i : Z) : Z :=
  if startsWith s needle then i
  else match s with
       | [] => -1
       | _ :: r => indexOfFrom r needle (i + 1)
       end.

(** [QString::indexOf(const QString &)]: the first position, or -1. *)
Definition indexOf (s needle : QString) : Z := indexOfFrom s needle 0.

(** [QString::mid(position)]: everything from [position] on. *)
Definition mid (s : QString) (position : Z) : QString :=
  skipn (Z.to_nat position) s.

Definition length (s : QString) : Z := Z.of_nat (List.length s).

Definition isEmpty (s : QString) : bool := negb (nonEmpty s).

Fixpoint eqb (a b : QString) : bool :=
  match a, b with
  | [], [] => true
  | x :: a', y :: b' => Ascii.eqb x y && eqb a' b'
  | _, _ => false
  end.

(** *** [QString::arg(const QString &a, int fieldWidth, QChar fillChar = ' ')]

    The lowest-numbered place marker of the string ([%1] .. [%99], with an
    optional [L]) is replaced by [a], padded with spaces to [fieldWidth]
    characters: on the left for a positive width, on the right for a
    negative one.  Markers with a higher number stay as they are. *)

Definition digitValue (c : ascii) : option nat :=
  let n := nat_of_ascii c in
  if ((48 <=? n) && (n <=? 57))%nat then Some (n - 48)%nat else None.

Inductive Piece :=
| Lit (c : ascii)
| Marker (number : nat) (raw : QString).

Definition percent : ascii := "%"%char.
Definition letterL : ascii := "L"%char.

(** The digits of a place marker at the head of [s] (after [%] or [%L]):
    its number, its digits as written, and what follows. *)
Definition markerDigits (s : QString) : option (nat * QString * QString) :=
  match s with
  | d1 :: r1 =>
      match digitValue d1 with
      | None => None
      | Some n1 =>
          match r1 with
          | d2 :: r2 =>
              match digitValue d2 with
              | Some n2 => Some (10 * n1 + n2, [d1; d2], r2)%nat
              | None => Some (n1, [d1], r1)
              end
          | [] => Some (n1, [d1], r1)
          end
      end
  | [] => None
  end.

Fixpoint pieces_fuel (fuel : nat) (s : QString) : list Piece :=
  match fuel with
  | O => []
  | S fuel' =>
      match s with
      | [] => []
      | c :: r =>
          if Ascii.eqb c percent then
            let (loc, r') :=
              match r with
              | l :: r'' => if Ascii.eqb l letterL then ([l], r'') else ([], r)
              | [] => ([], r)
              end in
            match markerDigits r' with
            | Some (n, ds, rest) =>
                Marker n (c :: loc ++ ds) :: pieces_fuel fuel' rest
            | None => Lit c :: pieces_fuel fuel' r
            end
          else Lit c :: pieces_fuel fuel' r
      end
  end.

Definition pieces (s : QString) : list Piece :=
  pieces_fuel (List.length s) s.

Definition lowestMarker (ps : list Piece) : option nat :=
  fold_right
    (fun p acc =>
       match p, acc with
       | Marker n _, Some m => Some (Nat.min n m)
       | Marker n _, None => Some n
       | Lit _, _ => acc
       end) None ps.

Definition pad (a : QString) (fieldWidth : Z) : QString :=
  let fill := repeat space (Z.to_nat (Z.abs fieldWidth) - List.length a) in
  if 0 <? fieldWidth then fill ++ a else a ++ fill.

Definition arg (s a : QString) (fieldWidth : Z) : QString :=
  let ps := pieces s in
  match lowestMarker ps with
  | None => s
  | Some low =>
      flat_map
        (fun p =>
           match p with
           | Lit c => [c]
           | Marker n raw => if Nat.eqb n low then pad a fieldWidth else raw
           end) ps
  end.

End QStr.

(** ** Values and rows

    [QVariant] as far as the code uses it: a null variant, a 64-bit integer,
    a string and a byte array.  These are also the values a statement binds
    and a result row holds. *)

Inductive QVariant :=
| VNull
| VInt (n : Z)
| VStr (s : QString)
| VBytes (b : QByteArray).

(** [qint64] arithmetic, wrap-around written out. *)
Definition wrap64 (z : Z) : Z := (z + 2 ^ 63) mod 2 ^ 64 - 2 ^ 63.

Definition decimal (n : Z) : QString :=
  list_ascii_of_string (NilZero.string_of_int (Z.to_int n)).

Fixpoint digitsValue (acc : Z) (s : QString) : option Z :=
  match s with
  | [] => Some acc
  | c :: r =>
      match QStr.digitValue c with
      | Some d => digitsValue (10 * acc + Z.of_nat d) r
      | None => None
      end
  end.

(** An integer literal: an optional minus sign and at least one digit. *)
Definition intLiteral (s : QString) : option Z :=
  match s with
  | [] => None
  | c :: r =>
      if Ascii.eqb c "-"%char then
        match r with
        | [] => None
        | _ :: _ => option_map Z.opp (digitsValue 0 r)
        end
      else digitsValue 0 s
  end.

Definition toLongLong (v : QVariant) : Z :=
  match v with
  | VInt n => n
  | VStr s => match intLiteral s with Some n => n | None => 0 end
  | _ => 0
  end.

Definition toString (v : QVariant) : QString :=
  match v with
  | VNull => []
  | VInt n => decimal n
  | VStr s => s
  | VBytes b => b
  end.

Definition toByteArray (v : QVariant) : QByteArray :=
  match v with
  | VNull => []
  | VInt n => decimal n
  | VStr s => s
  | VBytes b => b
  end.

(** [QIcon]: whether it is null, its [cacheKey()], and the PNG bytes of its
    16x16 pixmap (what the [icon_bytes] lambda of [FaviconId] yields; the
    codec itself is outside the program). *)
Record QIcon := mkIcon {
  isNull : bool;
  cacheKey : Z;
  pngData : QByteArray
}.

Definition nullIcon : QIcon := mkIcon true 0 [].

(** Modelled from the spec: the storage schema, which the repository keeps
    outside page_index.cc.  [autocomplete_page] and [favicon] with the columns
    of section 6, typed as section 3 types them; [ap_id] is the row id the
    search index joins on. *)
Record PageRow := mkPage {
  ap_id : Z;
  ap_url : QString;
  ap_url_hash : Z;
  ap_schemeless_url : QString;
  ap_title : QString;
  ap_favicon_id : option Z;
  ap_last_visited : Z;
  ap_visit_count : Z;
  ap_frecency : Z
}.

Record FaviconRow := mkFavicon {
  f_id : Z;
  f_url : QString;
  f_url_hash : Z;
  f_data_key : Z;
  f_data : QByteArray
}.

Record Store := mkStore {
  pages : list PageRow;
  favicons : list FaviconRow
}.

(** A result row: column name and value. *)
Definition QSqlRecord := list (QString * QVariant).

Fixpoint value (name : QString) (r : QSqlRecord) : QVariant :=
  match r with
  | [] => VNull
  | (n, v) :: r' => if QStr.eqb n name then v else value name r'
  end.

Definition valueAt (i : nat) (r : QSqlRecord) : QVariant :=
  match nth_error r i with Some (_, v) => v | None => VNull end.

Definition recordIsEmpty (r : QSqlRecord) : bool :=
  match r with [] => true | _ :: _ => false end.

(** What a [QSqlQuery] holds after an execution. *)
Record QSqlQuery := mkQuery {
  lastErrorIsValid : bool;
  resultRows : list QSqlRecord;
  numRowsAffected : Z;
  lastInsertId : QVariant
}.

Definition failedQuery : QSqlQuery := mkQuery true [] (-1) VNull.

(** What lies outside page_index.cc: [Util::HashString], the two constants of
    page_index.h and the icon a decoded pixmap becomes. *)
Class Externals := {
  HashString : QString -> Z;
  kVisitTimeWorthSeconds : Z;
  kExpireNotVisitedSinceSeconds : Z;
  iconFromData : QByteArray -> QIcon
}.

(** ** The statements of page_index.cc

    The SQL texts, as the source concatenates them. *)

Definition sql_update_page : QString :=
  qs "UPDATE autocomplete_page SET "
  ++ qs "  schemeless_url = ?, "
  ++ qs "  title = ?, "
  ++ qs "  favicon_id = ?, "
  ++ qs "  last_visited = ?, "
  ++ qs "  visit_count = visit_count + 1, "
  ++ qs "  frecency = ? + ((visit_count + 1) * ?) "
  ++ qs "WHERE url_hash = ? AND url = ? ".

Definition sql_insert_page : QString :=
  qs "INSERT INTO autocomplete_page ( "
  ++ qs "  url, url_hash, schemeless_url, title, "
  ++ qs "  favicon_id, last_visited, visit_count, frecency "
  ++ qs ") VALUES (?, ?, ?, ?, ?, ?, ?, ?) ".

Definition sql_delete_pages : QString :=
  qs "DELETE FROM autocomplete_page WHERE last_visited < ?".

Definition sql_delete_favicons : QString :=
  qs "DELETE FROM favicon WHERE id IN ( "
  ++ qs "  SELECT DISTINCT favicon_id "
  ++ qs "  FROM autocomplete_page "
  ++ qs ")".

Definition sql_select_favicon : QString :=
  qs "SELECT id, data_key "
  ++ qs "FROM favicon "
  ++ qs "WHERE url_hash = ? AND url = ?".

Definition sql_update_favicon : QString :=
  qs "UPDATE favicon SET "
  ++ qs "  data_key = ?, "
  ++ qs "  data = ? "
  ++ qs "WHERE id = ?".

Definition sql_insert_favicon : QString :=
  qs "INSERT INTO favicon ( "
  ++ qs "  url, url_hash, data_key, data "
  ++ qs ") VALUES (?, ?, ?, ?)".

Definition sql_select_favicon_data : QString :=
  qs "SELECT data FROM favicon "
  ++ qs "WHERE url_hash = ? AND url = ?".

Definition sql_suggest_template : QString :=
  qs "SELECT ap.url, ap.title, f.url as favicon_url "
  ++ qs "FROM autocomplete_page_fts apf('%1') "
  ++ qs "  JOIN autocomplete_page ap ON "
  ++ qs "    ap.id = apf.rowid "
  ++ qs "  LEFT JOIN favicon f "
  ++ qs "    ON f.id = ap.favicon_id "
  ++ qs "ORDER BY apf.frecency "
  ++ qs "LIMIT %2".

(** ** The storage service

    What the engine does with each of these texts, parameters bound to the
    [?] marks by position.  [None] is a statement the engine refuses.  The
    columns are typed as the schema types them: a statement that binds a
    value of another kind to a column it writes is refused, and so is a
    statement with more or fewer parameters than marks. *)

Module Engine.

(** What a statement gives back: result rows, the number of rows affected
    and the generated id. *)
Record Answer := mkAnswer {
  ansRows : list QSqlRecord;
  ansAffected : Z;
  ansInsertId : QVariant
}.

Definition asInt (v : QVariant) : option Z :=
  match v with VInt n => Some n | _ => None end.

Definition asText (v : QVariant) : option QString :=
  match v with VStr s => Some s | _ => None end.

Definition asBytes (v : QVariant) : option QByteArray :=
  match v with VBytes b => Some b | _ => None end.

Definition asOptInt (v : QVariant) : option (option Z) :=
  match v with
  | VNull => Some None
  | VInt n => Some (Some n)
  | _ => None
  end.

(** [column = ?] for an integer column: a bound integer compares by value, a
    bound text only if it reads as an integer literal, NULL never. *)
Definition intColumnEq (col : Z) (v : QVariant) : bool :=
  match v with
  | VInt n => col =? n
  | VStr s => match intLiteral s with Some n => col =? n | None => false end
  | _ => false
  end.

(** [column = ?] for a text column: a bound text compares by characters, a
    bound integer through its decimal text, NULL never. *)
Definition textColumnEq (col : QString) (v : QVariant) : bool :=
  match v with
  | VStr s => QStr.eqb col s
  | VInt n => QStr.eqb col (decimal n)
  | _ => false
  end.

(** The id an insert generates: one more than the largest in the table. *)
Definition freshId (ids : list Z) : Z := 1 + fold_right Z.max 0 ids.

Definition count {A} (f : A -> bool) (l : list A) : Z :=
  Z.of_nat (List.length (filter f l)).

Definition updatePage (params : list QVariant) (st : Store)
  : option (Store * Answer) :=
  match params with
  | [p1; p2; p3; p4; p5; p6; p7; p8] =>
      match asText p1, asText p2, asOptInt p3, asInt p4, asInt p5, asInt p6 with
      | Some schemeless, Some title, Some fav, Some visited, Some base, Some weight =>
          let hit r := intColumnEq (ap_url_hash r) p7 && textColumnEq (ap_url r) p8 in
          let upd r :=
            if hit r then
              mkPage (ap_id r) (ap_url r) (ap_url_hash r) schemeless title fav
                     visited (ap_visit_count r + 1)
                     (base + (ap_visit_count r + 1) * weight)
            else r in
          Some (mkStore (map upd (pages st)) (favicons st),
                mkAnswer [] (count hit (pages st)) VNull)
      | _, _, _, _, _, _ => None
      end
  | _ => None
  end.

Definition insertPage (params : list QVariant) (st : Store)
  : option (Store * Answer) :=
  match params with
  | [p1; p2; p3; p4; p5; p6; p7; p8] =>
      match asText p1, asInt p2, asText p3, asText p4,
            asOptInt p5, asInt p6, asInt p7, asInt p8 with
      | Some url, Some hash, Some schemeless, Some title,
        Some fav, Some visited, Some visits, Some frec =>
          let id := freshId (map ap_id (pages st)) in
          Some (mkStore
                  (pages st ++ [mkPage id url hash schemeless title fav
                                       visited visits frec])
                  (favicons st),
                mkAnswer [] 1 (VInt id))
      | _, _, _, _, _, _, _, _ => None
      end
  | _ => None
  end.

Definition deletePages (params : list QVariant) (st : Store)
  : option (Store * Answer) :=
  match params with
  | [p1] =>
      match asInt p1 with
      | Some old =>
          let gone r := ap_last_visited r <? old in
          Some (mkStore (filter (fun r => negb (gone r)) (pages st)) (favicons st),
                mkAnswer [] (count gone (pages st)) VNull)
      | None => None
      end
  | _ => None
  end.

(** [id IN (SELECT DISTINCT favicon_id FROM autocomplete_page)]. *)
Definition referenced (ps : list PageRow) (f : FaviconRow) : bool :=
  existsb (fun r => match ap_favicon_id r with
                    | Some i => i =? f_id f
                    | None => false
                    end) ps.

Definition deleteFavicons (params : list QVariant) (st : Store)
  : option (Store * Answer) :=
  match params with
  | [] =>
      let gone f := referenced (pages st) f in
      Some (mkStore (pages st) (filter (fun f => negb (gone f)) (favicons st)),
            mkAnswer [] (count gone (favicons st)) VNull)
  | _ => None
  end.

Definition faviconHit (p1 p2 : QVariant) (f : FaviconRow) : bool :=
  intColumnEq (f_url_hash f) p1 && textColumnEq (f_url f) p2.

Definition selectFavicon (params : list QVariant) (st : Store)
  : option (Store * Answer) :=
  match params with
  | [p1; p2] =>
      Some (st,
            mkAnswer
              (map (fun f => [(qs "id", VInt (f_id f));
                              (qs "data_key", VInt (f_data_key f))])
                   (filter (faviconHit p1 p2) (favicons st)))
              (-1) VNull)
  | _ => None
  end.

Definition selectFaviconData (params : list QVariant) (st : Store)
  : option (Store * Answer) :=
  match params with
  | [p1; p2] =>
      Some (st,
            mkAnswer
              (map (fun f => [(qs "data", VBytes (f_data f))])
                   (filter (faviconHit p1 p2) (favicons st)))
              (-1) VNull)
  | _ => None
  end.

Definition updateFavicon (params : list QVariant) (st : Store)
  : option (Store * Answer) :=
  match params with
  | [p1; p2; p3] =>
      match asInt p1, asBytes p2 with
      | Some key, Some data =>
          let hit f := intColumnEq (f_id f) p3 in
          let upd f :=
            if hit f then mkFavicon (f_id f) (f_url f) (f_url_hash f) key data
            else f in
          Some (mkStore (pages st) (map upd (favicons st)),
                mkAnswer [] (count hit (favicons st)) VNull)
      | _, _ => None
      end
  | _ => None
  end.

Definition insertFavicon (params : list QVariant) (st : Store)
  : option (Store * Answer) :=
  match params with
  | [p1; p2; p3; p4] =>
      match asText p1, asInt p2, asInt p3, asBytes p4 with
      | Some url, Some hash, Some key, Some data =>
          let id := freshId (map f_id (favicons st)) in
          Some (mkStore (pages st)
                        (favicons st ++ [mkFavicon id url hash key data]),
                mkAnswer [] 1 (VInt id))
      | _, _, _, _ => None
      end
  | _ => None
  end.

(** The text of the suggestion query before and after its search
    expression, up to the operand of [LIMIT]. *)
Definition suggest_head : QString :=
  qs "SELECT ap.url, ap.title, f.url as favicon_url "
  ++ qs "FROM autocomplete_page_fts apf('".

Definition suggest_tail : QString :=
  qs "') "
  ++ qs "  JOIN autocomplete_page ap ON "
  ++ qs "    ap.id = apf.rowid "
  ++ qs "  LEFT JOIN favicon f "
  ++ qs "    ON f.id = ap.favicon_id "
  ++ qs "ORDER BY apf.frecency "
  ++ qs "LIMIT ".

Fixpoint untilSpace (s : QString) : QString :=
  match s with
  | [] => []
  | c :: r => if Ascii.eqb c space then [] else c :: untilSpace r
  end.

(** The characters after the last space of the text. *)
Definition lastWord (s : QString) : QString := rev (untilSpace (rev s)).

(** The engine, statement by statement; any other text is refused.  The
    suggestion query of [AutocompleteSuggest] is such a text, whatever is
    spliced into it: the engine's grammar takes the parenthesised argument
    of a table-valued call right after the table name, where the text has
    the alias [apf] first, and takes an expression after [LIMIT], where the
    text has the place marker [%2]. *)
Definition run (sql : QString) (params : list QVariant) (st : Store)
  : option (Store * Answer) :=
  if QStr.eqb sql sql_update_page then updatePage params st
  else if QStr.eqb sql sql_insert_page then insertPage params st
  else if QStr.eqb sql sql_delete_pages then deletePages params st
  else if QStr.eqb sql sql_delete_favicons then deleteFavicons params st
  else if QStr.eqb sql sql_select_favicon then selectFavicon params st
  else if QStr.eqb sql sql_update_favicon then updateFavicon params st
  else if QStr.eqb sql sql_insert_favicon then insertFavicon params st
  else if QStr.eqb sql sql_select_favicon_data then selectFaviconData params st
  else None.

End Engine.

(** ** The world the code runs in

    The store, the process-wide pixmap cache, the clock, the storage faults
    still to come (one flag per statement, [true] for a statement the storage
    fails; none left means none fails) and the statements issued so far. *)
Record World := mkWorld {
  store : Store;
  pixmapCache : list (QString * QByteArray);
  clock : Z;
  faults : list bool;
  trace : list (QString * list QVariant)
}.

Definition M (A : Type) : Type := World -> A * World.

Definition ret {A} (a : A) : M A := fun w => (a, w).

Definition bind {A B} (m : M A) (k : A -> M B) : M B :=
  fun w => let (a, w') := m w in k a w'.

Notation "x <- m ;; k" := (bind m (fun x => k))
  (at level 61, m at next level, right associativity).
Notation "m ;;; k" := (bind m (fun _ => k))
  (at level 61, right associativity).

(** [QDateTime::currentSecsSinceEpoch()]. *)
Definition currentSecsSinceEpoch : M Z := fun w => (clock w, w).

Definition pixmapCacheFind (key : QString) : M (option QByteArray) :=
  fun w =>
    (option_map snd
       (find (fun kv => QStr.eqb (fst kv) key) (pixmapCache w)), w).

Definition pixmapCacheInsert (key : QString) (pixmap : QByteArray) : M unit :=
  fun w =>
    (tt, mkWorld (store w) ((key, pixmap) :: pixmapCache w) (clock w)
                 (faults w) (trace w)).

Section PageIndex.
Context `{Externals}.

(** One statement handed to the storage service: it is logged, the next
    fault flag is consumed, and unless the storage fails the engine runs. *)
Definition execute (sql : QString) (params : list QVariant) : M QSqlQuery :=
  fun w =>
    let logged := trace w ++ [(sql, params)] in
    let fails := match faults w with f :: _ => f | [] => false end in
    let later := tl (faults w) in
    if fails then
      (failedQuery, mkWorld (store w) (pixmapCache w) (clock w) later logged)
    else
      match Engine.run sql params (store w) with
      | None =>
          (failedQuery, mkWorld (store w) (pixmapCache w) (clock w) later logged)
      | Some (st, a) =>
          (mkQuery false (Engine.ansRows a) (Engine.ansAffected a)
                   (Engine.ansInsertId a),
           mkWorld st (pixmapCache w) (clock w) later logged)
      end.

(** Modelled from the spec: [Sql::Exec], [Sql::ExecParam] and
    [Sql::ExecSingleParam] of sql.h, the three consumed storage operations
    of section 6: execute, execute with parameters, and single-row lookup
    (the first row, or an empty record).  The query object comes back with
    the outcome; success is the absence of an error. *)
Definition Exec (sql : QString) : M QSqlQuery := execute sql [].

Definition ExecParam (sql : QString) (params : list QVariant) : M QSqlQuery :=
  execute sql params.

Definition ExecSingleParam (sql : QString) (params : list QVariant)
  : M (QSqlQuery * QSqlRecord) :=
  query <- execute sql params ;;
  ret (query, match resultRows query with r :: _ => r | [] => [] end).

Definition ok (query : QSqlQuery) : bool := negb (lastErrorIsValid query).

(** ** PageIndex *)

Record AutocompletePage := mkAutocompletePage {
  page_url : QString;
  page_title : QString;
  page_favicon : QIcon
}.

(** [PageIndex::CachedFavicon].  A [QPixmap] is kept as the bytes it was
    loaded from. *)
Definition CachedFavicon (url : QString) : M QIcon :=
  if QStr.isEmpty url then ret nullIcon
  else
    let key := qs "doogie:favicon_" ++ url in
    found <- pixmapCacheFind key ;;
    match found with
    | Some pixmap => ret (iconFromData pixmap)
    | None =>
        let hash := HashString url in
        qr <- ExecSingleParam sql_select_favicon_data [VInt hash; VStr url] ;;
        let rec := snd qr in
        if recordIsEmpty rec then ret nullIcon
        else
          let pixmap := toByteArray (valueAt 0 rec) in
          pixmapCacheInsert key pixmap ;;;
          ret (iconFromData pixmap)
    end.

(** The [to_search] string of [AutocompleteSuggest]: a space, then every
    piece of the trimmed, quote-doubled text between quotes, followed by an
    asterisk and a space. *)
Definition to_search (text : QString) : QString :=
  fold_left
    (fun acc piece => acc ++ ([dquote] ++ piece ++ [dquote; "*"%char; space]))
    (QStr.split space
       (QStr.replace dquote [dquote; dquote] (QStr.trimmed text)))
    [space].

Fixpoint appendPages (rows : list QSqlRecord) (acc : list AutocompletePage)
  : M (list AutocompletePage) :=
  match rows with
  | [] => ret acc
  | r :: rows' =>
      icon <- CachedFavicon (toString (value (qs "favicon_url") r)) ;;
      appendPages rows'
        (acc ++ [mkAutocompletePage (toString (value (qs "url") r))
                                    (toString (value (qs "title") r))
                                    icon])
  end.

(** [PageIndex::AutocompleteSuggest].  [count] goes to [QString::arg] next
    to a [QString], which is the overload that takes a field width. *)
Definition AutocompleteSuggest (text : QString) (count : Z)
  : M (list AutocompletePage) :=
  let to_search := to_search text in
  if QStr.length to_search =? 1 then ret []
  else
    let sql := QStr.arg sql_suggest_template to_search count in
    query <- Exec sql ;;
    if negb (ok query) then ret []
    else appendPages (resultRows query) [].

(** [PageIndex::FaviconId]. *)
Definition FaviconId (url : QString) (favicon : QIcon) : M QVariant :=
  if QStr.isEmpty url || isNull favicon then ret VNull
  else
    let hash := HashString url in
    let icon_bytes := pngData favicon in
    qr <- ExecSingleParam sql_select_favicon [VInt hash; VStr url] ;;
    let query := fst qr in
    let record := snd qr in
    if lastErrorIsValid query then ret VNull
    else if negb (recordIsEmpty record) then
      (if negb (cacheKey favicon =? toLongLong (value (qs "data_key") record))
       then
         ExecParam sql_update_favicon
           [VInt (cacheKey favicon); VBytes icon_bytes; value (qs "id") record] ;;;
         ret tt
       else ret tt) ;;;
      ret (value (qs "id") record)
    else
      query <- ExecParam sql_insert_favicon
                 [VStr url; VInt hash; VInt (cacheKey favicon); VBytes icon_bytes] ;;
      if negb (ok query) then ret VNull
      else ret (lastInsertId query).

(** [PageIndex::MarkVisit]. *)
Definition MarkVisit (url title favicon_url : QString) (favicon : QIcon)
  : M bool :=
  let scheme_sep := QStr.indexOf url (qs "://") in
  if scheme_sep =? -1 then ret false
  else
    let hash := HashString url in
    let schemeless_url := QStr.mid url (scheme_sep + 3) in
    curr_secs <- currentSecsSinceEpoch ;;
    favicon_id <- FaviconId favicon_url favicon ;;
    query <- ExecParam sql_update_page
               [VStr schemeless_url; VStr title; favicon_id; VInt curr_secs;
                VInt curr_secs; VInt kVisitTimeWorthSeconds; VStr url; VInt hash] ;;
    if negb (ok query) then ret false
    else if 0 <? numRowsAffected query then ret true
    else
      query <- ExecParam sql_insert_page
                 [VStr url; VInt hash; VStr schemeless_url; VStr title; favicon_id;
                  VInt curr_secs; VInt 1;
                  VInt (wrap64 (curr_secs + kVisitTimeWorthSeconds))] ;;
      ret (ok query).

(** [PageIndex::DoExpiration]. *)
Definition DoExpiration : M unit :=
  now <- currentSecsSinceEpoch ;;
  let old := wrap64 (now - kExpireNotVisitedSinceSeconds) in
  ExecParam sql_delete_pages [VInt old] ;;;
  Exec sql_delete_favicons ;;;
  ret tt.

(** The parameters of a lookup by [(url_hash, url)], the favicon rows it
    hits, and the row it returns: the first hit. *)
Definition lookupParams (url : QString) : list QVariant :=
  [VInt (HashString url); VStr url].

Definition hitsOf (url : QString) (st : Store) : list FaviconRow :=
  filter (Engine.faviconHit (VInt (HashString url)) (VStr url)) (favicons st).

Definition storedFavicon (url : QString) (st : Store) : option FaviconRow :=
  hd_error (hitsOf url st).

(** The row an INSERT of [MarkVisit] adds at time [now]. *)
Definition visitRow (st : Store) (url title : QString) (fav : option Z)
           (now : Z) : PageRow :=
  mkPage (Engine.freshId (map ap_id (pages st))) url (HashString url)
         (QStr.mid url (QStr.indexOf url (qs "://") + 3)) title fav now 1
         (wrap64 (now + kVisitTimeWorthSeconds)).

(** The parameters [MarkVisit] binds to its UPDATE and to its INSERT. *)
Definition updateParams (url title : QString) (fav : QVariant) (now : Z)
  : list QVariant :=
  [VStr (QStr.mid url (QStr.indexOf url (qs "://") + 3)); VStr title; fav;
   VInt now; VInt now; VInt kVisitTimeWorthSeconds; VStr url;
   VInt (HashString url)].

Definition insertParams (url title : QString) (fav : QVariant) (now : Z)
  : list QVariant :=
  [VStr url; VInt (HashString url);
   VStr (QStr.mid url (QStr.indexOf url (qs "://") + 3)); VStr title; fav;
   VInt now; VInt 1; VInt (wrap64 (now + kVisitTimeWorthSeconds))].

(** Serialized calls of [MarkVisit] for one URL, one after the other, the
    clock reading [t] at the call for each [t] of [times]. *)
Definition visitAt (url title favicon_url : QString) (favicon : QIcon)
           (w : World) (t : Z) : World :=
  snd (MarkVisit url title favicon_url favicon
         (mkWorld (store w) (pixmapCache w) t (faults w) (trace w))).

Definition visitAll (url title favicon_url : QString) (favicon : QIcon)
           (times : list Z) (w : World) : World :=
  fold_left (visitAt url title favicon_url favicon) times w.

(** What a page row says about a visit: url, visit count, time of the last
    visit, frecency. *)
Definition visitSummary (r : PageRow) : QString * Z * Z * Z :=
  (ap_url r, ap_visit_count r, ap_last_visited r, ap_frecency r).

(** The cutoff of a sweep and the page rows on or after it. *)
Definition cutoff (w : World) : Z :=
  wrap64 (clock w - kExpireNotVisitedSinceSeconds).

Definition keptPages (w : World) : list PageRow :=
  filter (fun r => negb (ap_last_visited r <? cutoff w)) (pages (store w)).

End PageIndex.

(** ** Vocabulary of the properties *)

(** [s] holds [needle] somewhere. *)
Definition contains (s needle : QString) : Prop :=
  exists pre post, s = pre ++ needle ++ post.

(** A URL with a scheme separator. *)
Definition hasSchemeSeparator (url : QString) : Prop :=
  contains url (qs "://").

(** A favicon row some page row of [ps] refers to. *)
Definition referencedBy (ps : list PageRow) (f : FaviconRow) : Prop :=
  exists r, In r ps /\ ap_favicon_id r = Some (f_id f).

(** *** The search string as the specification words it

    The trimmed text split on whitespace into non-empty tokens, each token
    with its quotes doubled, wrapped in quotes and followed by the wildcard,
    the wrapped tokens joined with spaces. *)

Definition escapeQuotes (token : QString) : QString :=
  QStr.replace dquote [dquote; dquote] token.

Definition prefixTerm (token : QString) : QString :=
  [dquote] ++ escapeQuotes token ++ [dquote; "*"%char].

Fixpoint joinWith (sep : QString) (l : list QString) : QString :=
  match l with
  | [] => []
  | x :: l' =>
      match l' with
      | [] => x
      | _ :: _ => x ++ sep ++ joinWith sep l'
      end
  end.

Fixpoint splitKeepWhere (isSep : ascii -> bool) (s : QString) : list QString :=
  match s with
  | [] => [[]]
  | c :: r =>
      if isSep c then [] :: splitKeepWhere isSep r
      else match splitKeepWhere isSep r with
           | p :: ps => (c :: p) :: ps
           | [] => [[c]]
           end
  end.

Definition tokensOnWhitespace (s : QString) : list QString :=
  filter QStr.nonEmpty (splitKeepWhere QStr.isSpace s).

Definition spec_search_string (text : QString) : QString :=
  joinWith [space] (map prefixTerm (tokensOnWhitespace (QStr.trimmed text))).

(** The same with the split on the space character alone, and one space
    before the first and after the last wrapped token. *)
Definition search_string_on_spaces (text : QString) : QString :=
  match QStr.split space (QStr.trimmed text) with
  | [] => [space]
  | tokens => [space] ++ joinWith [space] (map prefixTerm tokens) ++ [space]
  end.

(** The suggestion query with a search expression in it and the place
    marker [%2] still in it. *)
Definition suggest_sql_unbound (search : QString) : QString :=
  Engine.suggest_head ++ search ++ Engine.suggest_tail ++ qs "%2".


(** The clock set by the environment between two calls. *)
Definition atTime (now : Z) (w : World) : World :=
  mkWorld (store w) (pixmapCache w) now (faults w) (trace w).

(** The faults the environment schedules for the statements to come. *)
Definition withFaults (fs : list bool) (w : World) : World :=
  mkWorld (store w) (pixmapCache w) (clock w) fs (trace w).

(** The world after some statements: the store they leave, the faults still
    to come, the statements added to the trace. *)
Definition stepped (w : World) (st : Store) (later : list bool)
           (stmts : list (QString * list QVariant)) : World :=
  mkWorld st (pixmapCache w) (clock w) later (trace w ++ stmts).

(** Whether the storage fails the next statement, and the one after it. *)
Definition failsNext (w : World) : bool := hd false (faults w).

Definition failsSecond (w : World) : bool := hd false (tl (faults w)).

(** The key [CachedFavicon] uses in the pixmap cache, and what the cache
    holds under a key. *)
Definition faviconKey (url : QString) : QString := qs "doogie:favicon_" ++ url.

Definition cached (key : QString) (w : World) : option QByteArray :=
  option_map snd (find (fun kv => QStr.eqb (fst kv) key) (pixmapCache w)).

(** The statements [FaviconId] issues. *)
Definition insertFaviconStmt `{Externals} (url : QString) (favicon : QIcon)
  : QString * list QVariant :=
  (sql_insert_favicon,
   [VStr url; VInt (HashString url); VInt (cacheKey favicon);
    VBytes (pngData favicon)]).

Definition updateFaviconStmt (favicon : QIcon) (id : Z)
  : QString * list QVariant :=
  (sql_update_favicon,
   [VInt (cacheKey favicon); VBytes (pngData favicon); VInt id]).

(** The favicon rows after an INSERT for [url], and after an UPDATE of the
    rows with a given id. *)
Definition faviconsInserted `{Externals} (url : QString) (favicon : QIcon)
           (fs : list FaviconRow) : list FaviconRow :=
  fs ++ [mkFavicon (Engine.freshId (map f_id fs)) url (HashString url)
                   (cacheKey favicon) (pngData favicon)].

Definition faviconsUpdated (favicon : QIcon) (id : Z)
           (fs : list FaviconRow) : list FaviconRow :=
  map (fun x =>
         if f_id x =? id
         then mkFavicon (f_id x) (f_url x) (f_url_hash x)
                        (cacheKey favicon) (pngData favicon)
         else x) fs.

(** At most one favicon row answers the lookup of any URL. *)
Definition onePerUrl `{Externals} (st : Store) : Prop :=
  forall url, (List.length (hitsOf url st) <= 1)%nat.

(** The score of a page row is the time of its last visit plus its visit
    count times [kVisitTimeWorthSeconds]. *)
Definition frecencyOk `{Externals} (r : PageRow) : Prop :=
  ap_frecency r
  = ap_last_visited r + ap_visit_count r * kVisitTimeWorthSeconds.

(** ** A concrete setting for examples *)

#[local] Instance demo : Externals := {
  HashString := fun s => Z.of_nat (List.length s);
  kVisitTimeWorthSeconds := 100;
  kExpireNotVisitedSinceSeconds := 1000;
  iconFromData := fun b => mkIcon false 0 b
}.

Definition emptyWorld (now : Z) : World :=
  mkWorld (mkStore [] []) [] now [] [].

Definition exampleUrl : QString := qs "https://example.com/a".
Definition exampleTitle : QString := qs "Example A".
Definition exampleFaviconUrl : QString := qs "https://example.com/favicon.ico".
Definition exampleIcon : QIcon := mkIcon false 7 (qs "png-a").
Definition sameKeyIcon : QIcon := mkIcon false 7 (qs "png-a2").
Definition changedIcon : QIcon := mkIcon false 8 (qs "png-b").

(** The world after one visit of [exampleUrl] at time 5000, the clock moved
    on to 6000. *)
Definition visitedOnce : World :=
  atTime 6000
    (snd (MarkVisit exampleUrl exampleTitle [] nullIcon (emptyWorld 5000))).

(** Two pages that the index matches against any text, of frecency 5100
    and 6100. *)
Definition twoPages : World :=
  mkWorld
    (mkStore
       [mkPage 1 (qs "https://example.com/a") 21 (qs "example.com/a")
               (qs "Example A") None 5000 1 5100;
        mkPage 2 (qs "https://example.com/b") 21 (qs "example.com/b")
               (qs "Example B") None 6000 1 6100]
       [])
    [] 7000 [] [].

(** One favicon stored and not cached, and the same with other bytes
    cached under its key. *)
Definition iconWorld : World :=
  mkWorld
    (mkStore []
       [mkFavicon 1 exampleFaviconUrl (HashString exampleFaviconUrl) 7
                  (qs "png-a")])
    [] 5000 [] [].

Definition cachedWorld : World :=
  mkWorld (store iconWorld)
          [(faviconKey exampleFaviconUrl, qs "png-old")] 5000 [] [].

(** Three pages and three favicons at time 10000, with a retention of 1000:
    page 1 is stale and refers to favicon 1, page 2 is fresh and refers to
    favicon 2, page 3 is fresh with no favicon; favicon 3 has no page. *)
Definition sweepWorld : World :=
  mkWorld
    (mkStore
       [mkPage 1 (qs "u://old") 7 (qs "old") (qs "Old") (Some 1) 100 1 200;
        mkPage 2 (qs "u://new") 7 (qs "new") (qs "New") (Some 2) 9000 1 9100;
        mkPage 3 (qs "u://bare") 8 (qs "bare") (qs "Bare") None 9500 1 9600]
       [mkFavicon 1 (qs "u://old/i") 9 11 (qs "png-1");
        mkFavicon 2 (qs "u://new/i") 9 12 (qs "png-2");
        mkFavicon 3 (qs "u://gone/i") 10 13 (qs "png-3")])
    [] 10000 [] [].

(** * Properties *)

Example trimmed_ex : QStr.trimmed (qs "  a b  ") = qs "a b".
Proof. reflexivity. Qed.

Example split_ex : QStr.split space (qs "a  b c") = [qs "a"; qs "b"; qs "c"].
Proof. reflexivity. Qed.

Example indexOf_ex : QStr.indexOf (qs "http://x") (qs "://") = 4.
Proof. reflexivity. Qed.

Example arg_ex : QStr.arg (qs "f('%1') LIMIT %2") (qs "ab") 4 = qs "f('  ab') LIMIT %2".
Proof. reflexivity. Qed.

(** The engine on the UPDATE of [MarkVisit] with the last two parameters in
    the order of the columns, hash then URL: the row is hit and counted. *)
Example engine_update_in_column_order :
  option_map (fun x => (Engine.ansAffected (snd x),
                        map visitSummary (pages (fst x))))
    (Engine.run sql_update_page
       [VStr (qs "a"); VStr (qs "T"); VNull; VInt 6000; VInt 6000; VInt 100;
        VInt 8; VStr (qs "http://a")]
       (mkStore [mkPage 1 (qs "http://a") 8 (qs "a") (qs "T") None 5000 1 5100] []))
  = Some (1, [(qs "http://a", 2, 6000, 6200)]).
Proof. reflexivity. Qed.

(** The same with the URL and the hash in the order [MarkVisit] binds them. *)
Example engine_update_as_bound :
  option_map (fun x => (Engine.ansAffected (snd x),
                        map visitSummary (pages (fst x))))
    (Engine.run sql_update_page
       [VStr (qs "a"); VStr (qs "T"); VNull; VInt 6000; VInt 6000; VInt 100;
        VStr (qs "http://a"); VInt 8]
       (mkStore [mkPage 1 (qs "http://a") 8 (qs "a") (qs "T") None 5000 1 5100] []))
  = Some (0, [(qs "http://a", 1, 5000, 5100)]).
Proof. reflexivity. Qed.

(** ** Strings: trimming, splitting, searching *)

Lemma dropSpaces_blank (s : QString) :
  forallb QStr.isSpace s = true -> QStr.dropSpaces s = [].
Proof.
  induction s as [|c r IH]; simpl; [reflexivity|].
  intros Hb. apply andb_prop in Hb as [Hc Hr].
  rewrite Hc. auto.
Qed.

Lemma trimmed_blank (s : QString) :
  forallb QStr.isSpace s = true -> QStr.trimmed s = [].
Proof.
  intros Hb. unfold QStr.trimmed. rewrite (dropSpaces_blank s Hb). reflexivity.
Qed.

Lemma to_search_blank (text : QString) :
  forallb QStr.isSpace text = true -> to_search text = [space].
Proof.
  intros Hb. unfold to_search. rewrite (trimmed_blank text Hb). reflexivity.
Qed.

Lemma startsWith_app (p r : QString) : QStr.startsWith (p ++ r) p = true.
Proof.
  induction p as [|c p IH]; simpl; [reflexivity|].
  rewrite Ascii.eqb_refl. exact IH.
Qed.

Lemma startsWith_inv (s p : QString) :
  QStr.startsWith s p = true -> exists r, s = p ++ r.
Proof.
  revert s. induction p as [|c p IH]; intros s Hs.
  - exists s. reflexivity.
  - destruct s as [|d s]; simpl in Hs; [discriminate|].
    apply andb_prop in Hs as [Hc Hp].
    apply Ascii.eqb_eq in Hc. subst d.
    destruct (IH s Hp) as [r ->]. exists r. reflexivity.
Qed.

Lemma indexOfFrom_absent (needle s : QString) (i : Z) :
  ~ contains s needle -> QStr.indexOfFrom s needle i = -1.
Proof.
  revert i. induction s as [|c s IH]; intros i Hno.
  - simpl. destruct (QStr.startsWith [] needle) eqn:Hp; [|reflexivity].
    exfalso. apply Hno. apply startsWith_inv in Hp as [r Hr].
    exists [], r. exact Hr.
  - simpl. destruct (QStr.startsWith (c :: s) needle) eqn:Hp.
    + exfalso. apply Hno. apply startsWith_inv in Hp as [r Hr].
      exists [], r. exact Hr.
    + apply IH. intros (pre & post & Hs). apply Hno.
      exists (c :: pre), post. rewrite Hs. reflexivity.
Qed.

Lemma indexOfFrom_head (needle s : QString) (i : Z) :
  QStr.startsWith s needle = true -> QStr.indexOfFrom s needle i = i.
Proof.
  intros Hp. destruct s; simpl; rewrite Hp; reflexivity.
Qed.

Lemma indexOfFrom_present (needle s : QString) (i : Z) :
  contains s needle ->
  exists k, QStr.indexOfFrom s needle i = i + Z.of_nat k
            /\ QStr.startsWith (skipn k s) needle = true.
Proof.
  intros (pre & post & ->). revert i.
  induction pre as [|c pre IH]; intros i.
  - exists 0%nat. simpl app. split.
    + rewrite indexOfFrom_head by apply startsWith_app. lia.
    + apply startsWith_app.
  - simpl app. simpl QStr.indexOfFrom.
    destruct (QStr.startsWith (c :: pre ++ needle ++ post) needle) eqn:Hp.
    + exists 0%nat. split; [lia | exact Hp].
    + destruct (IH (i + 1)) as (k & Hk & Hs).
      exists (S k). split; [rewrite Hk; lia | exact Hs].
Qed.

Lemma indexOf_absent (s needle : QString) :
  ~ contains s needle -> QStr.indexOf s needle = -1.
Proof. apply indexOfFrom_absent. Qed.

Lemma indexOf_present (s needle : QString) :
  contains s needle ->
  exists k, QStr.indexOf s needle = Z.of_nat k
            /\ QStr.startsWith (skipn k s) needle = true.
Proof.
  intros Hc. destruct (indexOfFrom_present needle s 0 Hc) as (k & Hk & Hs).
  exists k. split; [exact Hk | exact Hs].
Qed.

Lemma wrap64_small (z : Z) : - 2 ^ 63 <= z < 2 ^ 63 -> wrap64 z = z.
Proof.
  intros Hz. unfold wrap64.
  rewrite Z.mod_small by lia. lia.
Qed.

(** ** Running statements *)

Section Running.
Context `{Externals}.

Lemma execute_run (sql : QString) (params : list QVariant) (w : World)
      (st : Store) (a : Engine.Answer) :
  faults w = [] ->
  Engine.run sql params (store w) = Some (st, a) ->
  execute sql params w =
    (mkQuery false (Engine.ansRows a) (Engine.ansAffected a) (Engine.ansInsertId a),
     mkWorld st (pixmapCache w) (clock w) [] (trace w ++ [(sql, params)])).
Proof.
  intros Hf Hr. unfold execute. rewrite Hf, Hr. reflexivity.
Qed.

Lemma execute_fault (sql : QString) (params : list QVariant) (w : World)
      (later : list bool) :
  faults w = true :: later ->
  execute sql params w =
    (failedQuery,
     mkWorld (store w) (pixmapCache w) (clock w) later (trace w ++ [(sql, params)])).
Proof.
  intros Hf. unfold execute. rewrite Hf. reflexivity.
Qed.

Lemma run_update_page : Engine.run sql_update_page = Engine.updatePage.
Proof. reflexivity. Qed.

Lemma run_insert_page : Engine.run sql_insert_page = Engine.insertPage.
Proof. reflexivity. Qed.

Lemma run_delete_pages : Engine.run sql_delete_pages = Engine.deletePages.
Proof. reflexivity. Qed.

Lemma run_delete_favicons : Engine.run sql_delete_favicons = Engine.deleteFavicons.
Proof. reflexivity. Qed.

Lemma run_select_favicon : Engine.run sql_select_favicon = Engine.selectFavicon.
Proof. reflexivity. Qed.

Lemma run_update_favicon : Engine.run sql_update_favicon = Engine.updateFavicon.
Proof. reflexivity. Qed.

Lemma run_insert_favicon : Engine.run sql_insert_favicon = Engine.insertFavicon.
Proof. reflexivity. Qed.

(** ** The expiration sweep *)

Lemma DoExpiration_store (w : World) :
  faults w = [] ->
  store (snd (DoExpiration w)) =
    mkStore (keptPages w)
            (filter (fun f => negb (Engine.referenced (keptPages w) f))
                    (favicons (store w))).
Proof.
  intros Hf. unfold DoExpiration, bind, currentSecsSinceEpoch, ExecParam, Exec.
  erewrite execute_run; [| exact Hf | rewrite run_delete_pages; reflexivity].
  erewrite execute_run; [| reflexivity | rewrite run_delete_favicons; reflexivity].
  reflexivity.
Qed.

End Running.

Lemma referenced_iff (ps : list PageRow) (f : FaviconRow) :
  Engine.referenced ps f = true <-> referencedBy ps f.
Proof.
  unfold Engine.referenced, referencedBy. rewrite existsb_exists.
  split; intros (r & Hin & Hr); exists r; split; auto.
  - destruct (ap_favicon_id r) as [i|]; [|discriminate].
    apply Z.eqb_eq in Hr. now subst i.
  - rewrite Hr. apply Z.eqb_refl.
Qed.

Section Expiration.
Context `{Externals}.

(** C9. After one sweep at time [now] that the storage does not fail, no page
    row with [last_visited < now - kExpireNotVisitedSinceSeconds] is left,
    and every page row with [last_visited >= now - kExpireNotVisitedSinceSeconds]
    is still there. *)
Theorem DoExpiration_pages (w : World) :
  faults w = [] ->
  - 2 ^ 63 <= clock w - kExpireNotVisitedSinceSeconds < 2 ^ 63 ->
  let after := pages (store (snd (DoExpiration w))) in
  (forall r, ap_last_visited r < clock w - kExpireNotVisitedSinceSeconds ->
             ~ In r after)
  /\ (forall r, In r (pages (store w)) ->
                clock w - kExpireNotVisitedSinceSeconds <= ap_last_visited r ->
                In r after).
Proof.
  intros Hf Hrange after. subst after.
  rewrite (DoExpiration_store w Hf). cbn [pages].
  unfold keptPages, cutoff. rewrite (wrap64_small _ Hrange).
  split; intros r.
  - intros Hold Hin. apply filter_In in Hin as [_ Hk].
    apply negb_true_iff, Z.ltb_ge in Hk. lia.
  - intros Hin Hnew. apply filter_In. split; [exact Hin|].
    apply negb_true_iff, Z.ltb_ge. exact Hnew.
Qed.

(** C3 (what the code does). After one sweep that the storage does not fail,
    a favicon row that a remaining page row refers to is gone, and a favicon
    row that no remaining page row refers to is still there: the second
    statement deletes the rows whose id is IN the set of referenced ids. *)
Theorem DoExpiration_favicons (w : World) :
  faults w = [] ->
  let after := store (snd (DoExpiration w)) in
  (forall f, In f (favicons (store w)) ->
             referencedBy (pages after) f -> ~ In f (favicons after))
  /\ (forall f, In f (favicons (store w)) ->
                ~ referencedBy (pages after) f -> In f (favicons after)).
Proof.
  intros Hf after. subst after.
  rewrite (DoExpiration_store w Hf). cbn [pages favicons].
  split; intros f Hin Href.
  - intros Hleft. apply filter_In in Hleft as [_ Hk].
    apply negb_true_iff in Hk.
    apply referenced_iff in Href. congruence.
  - apply filter_In. split; [exact Hin|].
    apply negb_true_iff.
    destruct (Engine.referenced (keptPages w) f) eqn:Hr; [|reflexivity].
    exfalso. apply Href. apply referenced_iff. exact Hr.
Qed.

End Expiration.

(** ** The favicon upsert *)

Lemma qstr_eqb_refl (s : QString) : QStr.eqb s s = true.
Proof.
  induction s as [|c s IH]; simpl; [reflexivity|].
  rewrite Ascii.eqb_refl. exact IH.
Qed.

Lemma qstr_eqb_eq (a b : QString) : QStr.eqb a b = true -> a = b.
Proof.
  revert b. induction a as [|x a IH]; intros [|y b] Hab; simpl in Hab;
    try discriminate; [reflexivity|].
  apply andb_prop in Hab as [Hx Ha].
  apply Ascii.eqb_eq in Hx. f_equal; auto.
Qed.

Section Favicons.
Context `{Externals}.

(** No row yet: the lookup, then the insert. *)
Lemma FaviconId_insert (url : QString) (favicon : QIcon) (w : World) :
  url <> [] -> isNull favicon = false -> faults w = [] ->
  hitsOf url (store w) = [] ->
  let id := Engine.freshId (map f_id (favicons (store w))) in
  FaviconId url favicon w =
    (VInt id,
     mkWorld
       (mkStore (pages (store w))
          (favicons (store w)
           ++ [mkFavicon id url (HashString url) (cacheKey favicon)
                         (pngData favicon)]))
       (pixmapCache w) (clock w) []
       (trace w ++ [(sql_select_favicon, lookupParams url);
                    (sql_insert_favicon,
                     [VStr url; VInt (HashString url); VInt (cacheKey favicon);
                      VBytes (pngData favicon)])])).
Proof.
  intros Hu Hn Hf Hhits id. unfold FaviconId.
  destruct url as [|c url]; [congruence|]. cbn [QStr.isEmpty QStr.nonEmpty negb orb].
  rewrite Hn. unfold bind, ExecSingleParam, ExecParam, bind, ret.
  erewrite execute_run; [| exact Hf | rewrite run_select_favicon; reflexivity].
  cbn [Engine.ansRows resultRows fst snd lastErrorIsValid].
  unfold hitsOf in Hhits. rewrite Hhits. cbn [map recordIsEmpty negb].
  erewrite execute_run; [| reflexivity | rewrite run_insert_favicon; reflexivity].
  cbn. rewrite <- app_assoc. reflexivity.
Qed.

(** A row with the same fingerprint: the lookup and nothing else. *)
Lemma FaviconId_same (url : QString) (favicon : QIcon) (w : World)
      (f : FaviconRow) (more : list FaviconRow) :
  url <> [] -> isNull favicon = false -> faults w = [] ->
  hitsOf url (store w) = f :: more ->
  cacheKey favicon = f_data_key f ->
  FaviconId url favicon w =
    (VInt (f_id f),
     mkWorld (store w) (pixmapCache w) (clock w) []
             (trace w ++ [(sql_select_favicon, lookupParams url)])).
Proof.
  intros Hu Hn Hf Hhits Hkey. unfold FaviconId.
  destruct url as [|c url]; [congruence|]. cbn [QStr.isEmpty QStr.nonEmpty negb orb].
  rewrite Hn. unfold bind, ExecSingleParam, ExecParam, bind, ret.
  erewrite execute_run; [| exact Hf | rewrite run_select_favicon; reflexivity].
  cbn [Engine.ansRows resultRows fst snd lastErrorIsValid].
  unfold hitsOf in Hhits. rewrite Hhits. cbn [map recordIsEmpty negb].
  change (toLongLong (value (qs "data_key")
            [(qs "id", VInt (f_id f)); (qs "data_key", VInt (f_data_key f))]))
    with (f_data_key f).
  rewrite Hkey, Z.eqb_refl. reflexivity.
Qed.

(** A row with another fingerprint: the lookup, then the update by id. *)
Lemma FaviconId_changed (url : QString) (favicon : QIcon) (w : World)
      (f : FaviconRow) (more : list FaviconRow) :
  url <> [] -> isNull favicon = false -> faults w = [] ->
  hitsOf url (store w) = f :: more ->
  cacheKey favicon <> f_data_key f ->
  FaviconId url favicon w =
    (VInt (f_id f),
     mkWorld
       (mkStore (pages (store w))
          (map (fun x =>
                  if f_id x =? f_id f
                  then mkFavicon (f_id x) (f_url x) (f_url_hash x)
                                 (cacheKey favicon) (pngData favicon)
                  else x)
               (favicons (store w))))
       (pixmapCache w) (clock w) []
       (trace w ++ [(sql_select_favicon, lookupParams url);
                    (sql_update_favicon,
                     [VInt (cacheKey favicon); VBytes (pngData favicon);
                      VInt (f_id f)])])).
Proof.
  intros Hu Hn Hf Hhits Hkey. unfold FaviconId.
  destruct url as [|c url]; [congruence|]. cbn [QStr.isEmpty QStr.nonEmpty negb orb].
  rewrite Hn. unfold bind, ExecSingleParam, ExecParam, bind, ret.
  erewrite execute_run; [| exact Hf | rewrite run_select_favicon; reflexivity].
  cbn [Engine.ansRows resultRows fst snd lastErrorIsValid].
  unfold hitsOf in Hhits. rewrite Hhits. cbn [map recordIsEmpty negb].
  change (toLongLong (value (qs "data_key")
            [(qs "id", VInt (f_id f)); (qs "data_key", VInt (f_data_key f))]))
    with (f_data_key f).
  change (value (qs "id")
            [(qs "id", VInt (f_id f)); (qs "data_key", VInt (f_data_key f))])
    with (VInt (f_id f)).
  apply Z.eqb_neq in Hkey. rewrite Hkey. cbn [negb].
  erewrite execute_run; [| reflexivity | rewrite run_update_favicon; reflexivity].
  cbn. rewrite <- app_assoc. reflexivity.
Qed.

End Favicons.

Lemma filter_map_same {A} (hit : A -> bool) (upd : A -> A) (l : list A) :
  (forall x, hit (upd x) = hit x) ->
  filter hit (map upd l) = map upd (filter hit l).
Proof.
  intros Hsame. induction l as [|x l IH]; simpl; [reflexivity|].
  rewrite Hsame. destruct (hit x); simpl; rewrite IH; reflexivity.
Qed.

Section Upsert.
Context `{Externals}.

Lemma faviconHit_own (id key : Z) (url : QString) (data : QByteArray) :
  Engine.faviconHit (VInt (HashString url)) (VStr url)
    (mkFavicon id url (HashString url) key data) = true.
Proof.
  unfold Engine.faviconHit. cbn. rewrite Z.eqb_refl, qstr_eqb_refl. reflexivity.
Qed.

(** After an upsert that the storage does not fail, the lookup finds a row
    with the returned id and the icon's fingerprint. *)
Lemma FaviconId_post (url : QString) (favicon : QIcon) (w : World) :
  url <> [] -> isNull favicon = false -> faults w = [] ->
  exists f more,
    fst (FaviconId url favicon w) = VInt (f_id f)
    /\ faults (snd (FaviconId url favicon w)) = []
    /\ hitsOf url (store (snd (FaviconId url favicon w))) = f :: more
    /\ f_data_key f = cacheKey favicon.
Proof.
  intros Hu Hn Hf.
  destruct (hitsOf url (store w)) as [|f more] eqn:Hhits.
  - rewrite (FaviconId_insert url favicon w Hu Hn Hf Hhits). cbn [fst snd faults store].
    exists (mkFavicon (Engine.freshId (map f_id (favicons (store w)))) url
                      (HashString url) (cacheKey favicon) (pngData favicon)), [].
    split; [reflexivity|]. split; [reflexivity|]. split; [|reflexivity].
    unfold hitsOf in *. cbn [favicons].
    rewrite filter_app, Hhits. cbn [filter app].
    rewrite faviconHit_own. reflexivity.
  - destruct (Z.eq_dec (cacheKey favicon) (f_data_key f)) as [Hk|Hk].
    + rewrite (FaviconId_same url favicon w f more Hu Hn Hf Hhits Hk).
      cbn [fst snd faults store]. exists f, more. repeat split; auto.
    + rewrite (FaviconId_changed url favicon w f more Hu Hn Hf Hhits Hk).
      cbn [fst snd faults store].
      exists (mkFavicon (f_id f) (f_url f) (f_url_hash f)
                        (cacheKey favicon) (pngData favicon)).
      eexists.
      split; [reflexivity|]. split; [reflexivity|]. split; [|reflexivity].
      unfold hitsOf in *. cbn [favicons].
      rewrite filter_map_same.
      * rewrite Hhits. cbn [map]. rewrite Z.eqb_refl. reflexivity.
      * intros x. destruct (f_id x =? f_id f); reflexivity.
Qed.

(** C8. For a non-empty favicon URL and non-null icons, with no storage
    fault: a first upsert returns the id of the row the lookup now finds;
    a second upsert returns the same id; when the second icon has the same
    fingerprint the second call issues the lookup and nothing else and the
    store is unchanged; when the fingerprint differs, the row is rewritten
    in place with the new fingerprint and bytes, under the same id and with
    the same ids in the table. *)
Theorem FaviconId_twice (url : QString) (icon icon' : QIcon) (w : World) :
  url <> [] -> isNull icon = false -> isNull icon' = false -> faults w = [] ->
  let first := FaviconId url icon w in
  let second := FaviconId url icon' (snd first) in
  exists f,
    storedFavicon url (store (snd first)) = Some f
    /\ fst first = VInt (f_id f)
    /\ f_data_key f = cacheKey icon
    /\ fst second = fst first
    /\ (cacheKey icon' = cacheKey icon ->
        store (snd second) = store (snd first)
        /\ trace (snd second)
           = trace (snd first) ++ [(sql_select_favicon, lookupParams url)])
    /\ (cacheKey icon' <> cacheKey icon ->
        storedFavicon url (store (snd second))
        = Some (mkFavicon (f_id f) (f_url f) (f_url_hash f)
                          (cacheKey icon') (pngData icon'))
        /\ map f_id (favicons (store (snd second)))
           = map f_id (favicons (store (snd first)))
        /\ pages (store (snd second)) = pages (store (snd first))).
Proof.
  intros Hu Hn Hn' Hf first second.
  destruct (FaviconId_post url icon w Hu Hn Hf) as (f & more & Hid & Hf1 & Hhits & Hkey).
  fold first in Hid, Hf1, Hhits.
  exists f. split; [unfold storedFavicon; rewrite Hhits; reflexivity|].
  split; [exact Hid|]. split; [exact Hkey|].
  destruct (Z.eq_dec (cacheKey icon') (f_data_key f)) as [Hk|Hk].
  - subst second.
    rewrite (FaviconId_same url icon' (snd first) f more Hu Hn' Hf1 Hhits Hk).
    cbn [fst snd store trace]. split; [symmetry; exact Hid|].
    split; [intros _; split; reflexivity|].
    intros Hdiff. congruence.
  - subst second.
    rewrite (FaviconId_changed url icon' (snd first) f more Hu Hn' Hf1 Hhits Hk).
    cbn [fst snd store trace]. split; [symmetry; exact Hid|].
    split; [intros Hsame; congruence|].
    intros _. split; [|split].
    + unfold storedFavicon, hitsOf in *. cbn [favicons].
      rewrite filter_map_same.
      * rewrite Hhits. cbn [map hd_error]. rewrite Z.eqb_refl. reflexivity.
      * intros x. destruct (f_id x =? f_id f); reflexivity.
    + cbn [favicons]. rewrite map_map. apply map_ext.
      intros x. destruct (f_id x =? f_id f); reflexivity.
    + reflexivity.
Qed.

End Upsert.

(** ** Recording a visit *)

Lemma digitsValue_bad (c : ascii) (s : QString) :
  In c s -> QStr.digitValue c = None -> forall acc, digitsValue acc s = None.
Proof.
  induction s as [|d s IH]; intros Hin Hc acc; [contradiction|].
  simpl. destruct Hin as [->|Hin].
  - rewrite Hc. reflexivity.
  - destruct (QStr.digitValue d); [apply IH; assumption | reflexivity].
Qed.

Lemma scheme_colon (url : QString) :
  hasSchemeSeparator url -> In ":"%char url.
Proof.
  intros (pre & post & ->). apply in_or_app. right. left. reflexivity.
Qed.

(** A URL with a scheme separator does not read as an integer. *)
Lemma intLiteral_scheme (url : QString) :
  hasSchemeSeparator url -> intLiteral url = None.
Proof.
  intros Hs. pose proof (scheme_colon url Hs) as Hin.
  destruct url as [|c r]; [contradiction|].
  unfold intLiteral. destruct (Ascii.eqb c "-") eqn:Hc.
  - apply Ascii.eqb_eq in Hc. subst c.
    destruct Hin as [Hbad|Hin]; [discriminate|].
    destruct r as [|d r]; [reflexivity|].
    rewrite (digitsValue_bad ":"%char (d :: r) Hin eq_refl). reflexivity.
  - apply (digitsValue_bad ":"%char (c :: r) Hin eq_refl).
Qed.

Lemma map_unchanged {A} (hit : A -> bool) (upd : A -> A) (l : list A) :
  (forall x, hit x = false) ->
  map (fun x => if hit x then upd x else x) l = l
  /\ filter hit l = [].
Proof.
  intros Hno. induction l as [|x l [IHm IHf]]; simpl; [split; reflexivity|].
  rewrite Hno, IHm, IHf. split; reflexivity.
Qed.

(** The UPDATE of [MarkVisit] binds the URL text to [url_hash = ?]; with a
    URL that has a scheme separator no row is hit, whatever the table holds. *)
Lemma updatePage_miss (schemeless title url : QString) (fav : QVariant)
      (o : option Z) (visited base weight hash : Z) (st : Store) :
  hasSchemeSeparator url ->
  Engine.asOptInt fav = Some o ->
  Engine.updatePage
    [VStr schemeless; VStr title; fav; VInt visited; VInt base; VInt weight;
     VStr url; VInt hash] st
  = Some (st, Engine.mkAnswer [] 0 VNull).
Proof.
  intros Hs Hfav. unfold Engine.updatePage. cbn [Engine.asText Engine.asInt].
  rewrite Hfav.
  assert (Hno : forall r : PageRow,
             Engine.intColumnEq (ap_url_hash r) (VStr url)
             && Engine.textColumnEq (ap_url r) (VInt hash) = false).
  { intros r. unfold Engine.intColumnEq. rewrite (intLiteral_scheme url Hs).
    reflexivity. }
  destruct (map_unchanged
              (fun r => Engine.intColumnEq (ap_url_hash r) (VStr url)
                        && Engine.textColumnEq (ap_url r) (VInt hash))
              (fun r => mkPage (ap_id r) (ap_url r) (ap_url_hash r) schemeless
                               title o visited (ap_visit_count r + 1)
                               (base + (ap_visit_count r + 1) * weight))
              (pages st) Hno) as [Hm Hc].
  rewrite Hm. unfold Engine.count. rewrite Hc.
  destruct st. reflexivity.
Qed.

Section Visits.
Context `{Externals}.

Lemma indexOf_scheme (url : QString) :
  hasSchemeSeparator url -> (QStr.indexOf url (qs "://") =? -1) = false.
Proof.
  intros Hs. destruct (indexOf_present url (qs "://") Hs) as (k & Hk & _).
  rewrite Hk. apply Z.eqb_neq. lia.
Qed.

(** Once the favicon is resolved to [fav] and no fault is pending, the
    UPDATE hits nothing and the INSERT adds a row. *)
Lemma MarkVisit_after_favicon (url title favicon_url : QString)
      (favicon : QIcon) (w w1 : World) (fav : QVariant) (o : option Z) :
  hasSchemeSeparator url ->
  Engine.asOptInt fav = Some o ->
  FaviconId favicon_url favicon w = (fav, w1) ->
  faults w1 = [] ->
  MarkVisit url title favicon_url favicon w =
    (true,
     mkWorld
       (mkStore (pages (store w1) ++ [visitRow (store w1) url title o (clock w)])
                (favicons (store w1)))
       (pixmapCache w1) (clock w1) []
       (trace w1 ++ [(sql_update_page, updateParams url title fav (clock w));
                     (sql_insert_page, insertParams url title fav (clock w))])).
Proof.
  intros Hs Hfav Hfi Hf1. unfold MarkVisit.
  rewrite (indexOf_scheme url Hs).
  unfold bind, currentSecsSinceEpoch, ExecParam, ret. rewrite Hfi.
  erewrite execute_run;
    [| exact Hf1
     | rewrite run_update_page; apply (updatePage_miss _ _ _ _ o); assumption].
  cbn [ok lastErrorIsValid negb numRowsAffected Engine.ansAffected Z.ltb Z.compare].
  erewrite execute_run; [| reflexivity |].
  2:{ rewrite run_insert_page. unfold Engine.insertPage.
      cbn [Engine.asText Engine.asInt store]. rewrite Hfav. reflexivity. }
  cbn [ok lastErrorIsValid negb Engine.ansRows Engine.ansAffected
       Engine.ansInsertId store pixmapCache clock trace].
  rewrite <- app_assoc. reflexivity.
Qed.

End Visits.

Section VisitClaims.
Context `{Externals}.

(** With no fault pending, the favicon resolution yields NULL or an id and
    touches neither the page rows nor the clock. *)
Lemma FaviconId_frame (url : QString) (favicon : QIcon) (w : World) :
  faults w = [] ->
  exists fav o w1,
    FaviconId url favicon w = (fav, w1)
    /\ Engine.asOptInt fav = Some o
    /\ faults w1 = []
    /\ pages (store w1) = pages (store w)
    /\ clock w1 = clock w.
Proof.
  intros Hf.
  destruct url as [|c url].
  { exists VNull, None, w. repeat split; auto. }
  destruct (isNull favicon) eqn:Hn.
  { exists VNull, None, w. unfold FaviconId. cbn. rewrite Hn.
    repeat split; auto. }
  assert (Hu : c :: url <> []) by discriminate.
  destruct (hitsOf (c :: url) (store w)) as [|f more] eqn:Hhits.
  - eexists; eexists; eexists.
    rewrite (FaviconId_insert (c :: url) favicon w Hu Hn Hf Hhits).
    split; [reflexivity|]. repeat split.
  - destruct (Z.eq_dec (cacheKey favicon) (f_data_key f)) as [Hk|Hk].
    + eexists; eexists; eexists.
      rewrite (FaviconId_same (c :: url) favicon w f more Hu Hn Hf Hhits Hk).
      split; [reflexivity|]. repeat split.
    + eexists; eexists; eexists.
      rewrite (FaviconId_changed (c :: url) favicon w f more Hu Hn Hf Hhits Hk).
      split; [reflexivity|]. repeat split.
Qed.

(** For a URL with a scheme separator and no storage fault, every
    [MarkVisit] succeeds by INSERT: the page rows already there, rows for
    the same URL included, stay as they are, and one more row is added with
    [visit_count = 1] and [frecency = now + kVisitTimeWorthSeconds]. *)
Lemma MarkVisit_inserts (url title favicon_url : QString) (favicon : QIcon)
        (w : World) :
  hasSchemeSeparator url ->
  faults w = [] ->
  let after := snd (MarkVisit url title favicon_url favicon w) in
  fst (MarkVisit url title favicon_url favicon w) = true
  /\ faults after = []
  /\ exists fav,
       pages (store after)
       = pages (store w)
         ++ [mkPage (Engine.freshId (map ap_id (pages (store w)))) url
                    (HashString url)
                    (QStr.mid url (QStr.indexOf url (qs "://") + 3))
                    title fav (clock w) 1
                    (wrap64 (clock w + kVisitTimeWorthSeconds))].
Proof.
  intros Hs Hf after. subst after.
  destruct (FaviconId_frame favicon_url favicon w Hf)
    as (fav & o & w1 & Hfi & Hfav & Hf1 & Hpages & _).
  rewrite (MarkVisit_after_favicon url title favicon_url favicon w w1 fav o
             Hs Hfav Hfi Hf1).
  cbn [fst snd faults store pages]. split; [reflexivity|]. split; [reflexivity|].
  exists o. unfold visitRow. rewrite Hpages. reflexivity.
Qed.

(** C2 (what the code does). For a URL with a scheme separator and no
    storage fault, [n] serialized [MarkVisit] calls at the times
    [t1 .. tn] leave the rows that were there as they were and add [n]
    rows for the URL, one per call, each with [visit_count = 1],
    [last_visited = ti] and [frecency = ti + kVisitTimeWorthSeconds]: no
    call increments a count. *)
Theorem MarkVisit_repeated (url title favicon_url : QString) (favicon : QIcon)
        (times : list Z) (w : World) :
  hasSchemeSeparator url ->
  faults w = [] ->
  map visitSummary
      (pages (store (visitAll url title favicon_url favicon times w)))
  = map visitSummary (pages (store w))
    ++ map (fun t => (url, 1, t, wrap64 (t + kVisitTimeWorthSeconds))) times.
Proof.
  intros Hs. revert w. induction times as [|t times IH]; intros w Hf.
  - cbn [visitAll fold_left map]. now rewrite app_nil_r.
  - change (visitAll url title favicon_url favicon (t :: times) w)
      with (visitAll url title favicon_url favicon times
              (visitAt url title favicon_url favicon w t)).
    destruct (MarkVisit_inserts url title favicon_url favicon
                (mkWorld (store w) (pixmapCache w) t (faults w) (trace w)) Hs Hf)
      as (_ & Hf1 & fav & Hrows).
    unfold visitAt. rewrite (IH _ Hf1), Hrows.
    rewrite map_app, <- app_assoc. reflexivity.
Qed.

(** C7. For a URL without the substring ["://"], [MarkVisit] returns false
    and leaves the world as it was: no statement is issued and no row is
    created or changed. *)
Theorem MarkVisit_no_scheme (url title favicon_url : QString) (favicon : QIcon)
        (w : World) :
  ~ hasSchemeSeparator url ->
  MarkVisit url title favicon_url favicon w = (false, w).
Proof.
  intros Hno. unfold MarkVisit.
  rewrite (indexOf_absent url (qs "://") Hno). reflexivity.
Qed.

(** C10. For a URL with a scheme separator, a non-empty favicon URL and a
    non-null icon: when the storage fails the favicon lookup and nothing
    after it, the resolution returns a null variant after that one
    statement, and [MarkVisit] still returns true, having added the page row
    with no favicon id and left the favicon rows alone. *)
Theorem MarkVisit_lookup_fault (url title favicon_url : QString)
        (favicon : QIcon) (w : World) :
  hasSchemeSeparator url ->
  favicon_url <> [] ->
  isNull favicon = false ->
  faults w = [true] ->
  fst (FaviconId favicon_url favicon w) = VNull
  /\ trace (snd (FaviconId favicon_url favicon w))
     = trace w ++ [(sql_select_favicon, lookupParams favicon_url)]
  /\ fst (MarkVisit url title favicon_url favicon w) = true
  /\ store (snd (MarkVisit url title favicon_url favicon w))
     = mkStore (pages (store w) ++ [visitRow (store w) url title None (clock w)])
               (favicons (store w)).
Proof.
  intros Hs Hu Hn Hf.
  assert (Hfi : FaviconId favicon_url favicon w =
                (VNull,
                 mkWorld (store w) (pixmapCache w) (clock w) []
                         (trace w ++ [(sql_select_favicon, lookupParams favicon_url)]))).
  { unfold FaviconId. destruct favicon_url as [|c u]; [congruence|].
    cbn [QStr.isEmpty QStr.nonEmpty negb orb]. rewrite Hn.
    unfold bind, ExecSingleParam, bind, ret.
    rewrite (execute_fault _ _ w [] Hf). reflexivity. }
  rewrite (MarkVisit_after_favicon url title favicon_url favicon w _ VNull None
             Hs eq_refl Hfi eq_refl).
  rewrite Hfi. cbn [fst snd store trace]. repeat split.
Qed.

End VisitClaims.

(** ** The search string *)

Lemma fold_left_append (g : QString -> QString) (l : list QString)
      (init : QString) :
  fold_left (fun acc p => acc ++ g p) l init = init ++ List.concat (map g l).
Proof.
  revert init. induction l as [|p l IH]; intros init; simpl.
  - now rewrite app_nil_r.
  - rewrite IH, app_assoc. reflexivity.
Qed.

Lemma splitKeep_cons (sep : ascii) (s : QString) :
  exists p ps, QStr.splitKeep sep s = p :: ps.
Proof.
  induction s as [|c s (p & ps & IH)]; simpl.
  - eauto.
  - destruct (Ascii.eqb c sep); [eauto|]. rewrite IH. eauto.
Qed.

Lemma splitKeep_push (sep c : ascii) (s : QString) :
  Ascii.eqb c sep = false ->
  QStr.splitKeep sep (c :: s) =
    (c :: hd [] (QStr.splitKeep sep s)) :: tl (QStr.splitKeep sep s).
Proof.
  intros Hc. simpl. rewrite Hc.
  destruct (splitKeep_cons sep s) as (p & ps & ->). reflexivity.
Qed.

Lemma splitKeep_escape (s : QString) :
  QStr.splitKeep space (escapeQuotes s)
  = map escapeQuotes (QStr.splitKeep space s).
Proof.
  induction s as [|c s IH]; [reflexivity|].
  unfold escapeQuotes in *. cbn [QStr.replace flat_map].
  destruct (Ascii.eqb c dquote) eqn:Hq.
  - apply Ascii.eqb_eq in Hq. subst c. cbn [app].
    rewrite !(splitKeep_push space dquote) by reflexivity.
    fold (QStr.replace dquote [dquote; dquote] s). rewrite IH.
    destruct (splitKeep_cons space s) as (p & ps & ->). reflexivity.
  - cbn [app]. fold (QStr.replace dquote [dquote; dquote] s).
    destruct (Ascii.eqb c space) eqn:Hs.
    + simpl. rewrite Hs. rewrite IH. reflexivity.
    + rewrite !(splitKeep_push space c) by exact Hs. rewrite IH.
      destruct (splitKeep_cons space s) as (p & ps & ->).
      cbn [map hd tl QStr.replace flat_map]. rewrite Hq. reflexivity.
Qed.

Lemma nonEmpty_escape (s : QString) :
  QStr.nonEmpty (escapeQuotes s) = QStr.nonEmpty s.
Proof.
  destruct s as [|c s]; [reflexivity|].
  unfold escapeQuotes. cbn [QStr.replace flat_map].
  destruct (Ascii.eqb c dquote); reflexivity.
Qed.

(** Doubling the quotes before the split is doubling them in every piece. *)
Lemma split_escape (s : QString) :
  QStr.split space (escapeQuotes s) = map escapeQuotes (QStr.split space s).
Proof.
  unfold QStr.split. rewrite splitKeep_escape.
  apply filter_map_same. apply nonEmpty_escape.
Qed.

Lemma concat_spaced (l : list QString) :
  l <> [] ->
  List.concat (map (fun t => t ++ [space]) l) = joinWith [space] l ++ [space].
Proof.
  induction l as [|x l IH]; intros Hne; [congruence|].
  destruct l as [|y l].
  - simpl. now rewrite app_nil_r.
  - cbn [map List.concat joinWith]. cbn [map List.concat] in IH.
    rewrite IH by discriminate. rewrite <- !app_assoc. reflexivity.
Qed.

Lemma to_search_pieces (text : QString) :
  to_search text =
    [space] ++ List.concat (map (fun t => prefixTerm t ++ [space])
                           (QStr.split space (QStr.trimmed text))).
Proof.
  unfold to_search. rewrite fold_left_append.
  fold (escapeQuotes (QStr.trimmed text)). rewrite split_escape, map_map.
  f_equal. f_equal. apply map_ext. intros t. unfold prefixTerm.
  rewrite <- !app_assoc. reflexivity.
Qed.

(** C6 (amended). For every text, the search string is a space, then the
    pieces of the trimmed text between space characters, empty pieces left
    out, each with its quotes doubled, wrapped in quotes and followed by an
    asterisk, joined with single spaces, then a space; a lone space when
    there is no piece. *)
Theorem to_search_on_spaces (text : QString) :
  to_search text = search_string_on_spaces text.
Proof.
  rewrite to_search_pieces. unfold search_string_on_spaces.
  destruct (QStr.split space (QStr.trimmed text)) as [|t ts] eqn:Hsplit;
    [reflexivity|].
  rewrite <- (map_map prefixTerm (fun t => t ++ [space])).
  rewrite concat_spaced by discriminate. reflexivity.
Qed.

(** C6 (as stated, refuted). A tab inside the text is whitespace but no
    place where the code splits: the code keeps one piece where the
    specification's wording has two tokens, with or without the framing
    spaces.  And for a single token the code's string has a space on either
    side that a plain join does not have. *)
Lemma to_search_tab_counterexample :
  to_search (qs "a" ++ [tab] ++ qs "b")
  <> spec_search_string (qs "a" ++ [tab] ++ qs "b")
  /\ to_search (qs "a" ++ [tab] ++ qs "b")
     <> [space] ++ spec_search_string (qs "a" ++ [tab] ++ qs "b") ++ [space]
  /\ to_search (qs "foo") <> spec_search_string (qs "foo").
Proof. repeat split; vm_compute; discriminate. Qed.

Example to_search_tab :
  to_search (qs "a" ++ [tab] ++ qs "b")
  = [space; dquote] ++ qs "a" ++ [tab] ++ qs "b" ++ [dquote] ++ qs "* "
  /\ spec_search_string (qs "a" ++ [tab] ++ qs "b")
     = [dquote] ++ qs "a" ++ [dquote] ++ qs "* "
       ++ [dquote] ++ qs "b" ++ [dquote] ++ qs "*".
Proof. split; reflexivity. Qed.

Example to_search_quote :
  to_search (qs "foo" ++ [dquote] ++ qs "bar")
  = [space; dquote] ++ qs "foo" ++ [dquote; dquote] ++ qs "bar"
    ++ [dquote] ++ qs "* ".
Proof. reflexivity. Qed.

(** ** The suggestion query *)

(** [count] only pads the search string; [%2] stays in the text. *)
Lemma arg_suggest (search : QString) (count : Z) :
  QStr.arg sql_suggest_template search count
  = suggest_sql_unbound (QStr.pad search count).
Proof. reflexivity. Qed.

Lemma lastWord_unbound (search : QString) :
  Engine.lastWord (suggest_sql_unbound search) = qs "%2".
Proof.
  unfold Engine.lastWord, suggest_sql_unbound.
  rewrite !rev_app_distr. reflexivity.
Qed.

Section Suggest.
Context `{Externals}.

(** The engine refuses the text, whatever the search expression in it. *)
Lemma run_unbound (search : QString) (params : list QVariant) (st : Store) :
  Engine.run (suggest_sql_unbound search) params st = None.
Proof. reflexivity. Qed.

Lemma execute_unbound (search : QString) (w : World) :
  execute (suggest_sql_unbound search) [] w
  = (failedQuery,
     mkWorld (store w) (pixmapCache w) (clock w) (tl (faults w))
             (trace w ++ [(suggest_sql_unbound search, [])])).
Proof.
  unfold execute. rewrite run_unbound.
  destruct (faults w) as [|[|] fs]; reflexivity.
Qed.

(** Whatever the index holds, a call that reaches the storage comes back
    empty-handed. *)
Lemma AutocompleteSuggest_refused (text : QString) (count : Z) (w : World) :
  (QStr.length (to_search text) =? 1) = false ->
  AutocompleteSuggest text count w
  = ([],
     mkWorld (store w) (pixmapCache w) (clock w) (tl (faults w))
             (trace w
              ++ [(suggest_sql_unbound (QStr.pad (to_search text) count), [])])).
Proof.
  intros Hlen. unfold AutocompleteSuggest. rewrite Hlen, arg_suggest.
  unfold bind, Exec. rewrite execute_unbound. reflexivity.
Qed.

Lemma AutocompleteSuggest_nil (text : QString) (count : Z) (w : World) :
  fst (AutocompleteSuggest text count w) = [].
Proof.
  destruct (QStr.length (to_search text) =? 1) eqn:Hlen.
  - unfold AutocompleteSuggest. rewrite Hlen. reflexivity.
  - rewrite (AutocompleteSuggest_refused text count w Hlen). reflexivity.
Qed.

End Suggest.

Lemma dropSpaces_head (s r : QString) (c : ascii) :
  QStr.dropSpaces s = c :: r -> QStr.isSpace c = false.
Proof.
  induction s as [|d s IH]; simpl; [discriminate|].
  destruct (QStr.isSpace d) eqn:Hd; [exact IH|].
  intros Heq. injection Heq as -> _. exact Hd.
Qed.

Lemma trimmed_has_char (text : QString) :
  QStr.trimmed text <> [] ->
  exists c, In c (QStr.trimmed text) /\ Ascii.eqb c space = false.
Proof.
  unfold QStr.trimmed. intros Hne.
  destruct (QStr.dropSpaces (rev (QStr.dropSpaces text))) as [|c r] eqn:Hd;
    [contradiction|].
  exists c. split.
  - apply in_rev. rewrite rev_involutive. left. reflexivity.
  - apply dropSpaces_head in Hd.
    destruct (Ascii.eqb c space) eqn:Hc; [|reflexivity].
    apply Ascii.eqb_eq in Hc. subst c. discriminate.
Qed.

Lemma splitKeep_covers (sep c : ascii) (s : QString) :
  In c s -> Ascii.eqb c sep = false ->
  exists p, In p (QStr.splitKeep sep s) /\ In c p.
Proof.
  intros Hin Hc. induction s as [|d s IH]; [contradiction|].
  destruct (Ascii.eqb d sep) eqn:Hd.
  - destruct Hin as [->|Hin]; [congruence|].
    destruct (IH Hin) as (p & Hp & Hcp).
    exists p. split; [|exact Hcp]. simpl. rewrite Hd. right. exact Hp.
  - rewrite (splitKeep_push sep d s Hd).
    destruct (splitKeep_cons sep s) as (p0 & ps & Hs). rewrite Hs in *.
    cbn [hd tl].
    destruct Hin as [->|Hin].
    + exists (c :: p0). split; left; reflexivity.
    + destruct (IH Hin) as (p & [<-|Hp] & Hcp).
      * exists (d :: p0). split; [left; reflexivity | right; exact Hcp].
      * exists p. split; [right; exact Hp | exact Hcp].
Qed.

Lemma split_has_piece (text : QString) :
  QStr.trimmed text <> [] -> QStr.split space (QStr.trimmed text) <> [].
Proof.
  intros Hne. destruct (trimmed_has_char text Hne) as (c & Hin & Hc).
  destruct (splitKeep_covers space c _ Hin Hc) as (p & Hp & Hcp).
  assert (Hfp : In p (QStr.split space (QStr.trimmed text))).
  { apply filter_In. split; [exact Hp|]. destruct p; [contradiction|reflexivity]. }
  intros Hnil. rewrite Hnil in Hfp. contradiction.
Qed.

Lemma to_search_long (text : QString) :
  QStr.trimmed text <> [] -> (QStr.length (to_search text) =? 1) = false.
Proof.
  intros Hne. pose proof (split_has_piece text Hne) as Hp.
  rewrite to_search_pieces.
  destruct (QStr.split space (QStr.trimmed text)) as [|t ts]; [congruence|].
  apply Z.eqb_neq. unfold QStr.length, prefixTerm. cbn [map List.concat app].
  cbn [List.length]. lia.
Qed.

Section SuggestClaims.
Context `{Externals}.

(** C5. For a text that is empty or all whitespace, [AutocompleteSuggest]
    returns the empty list and leaves the world as it was: no statement
    reaches the storage. *)
Theorem AutocompleteSuggest_blank (text : QString) (count : Z) (w : World) :
  forallb QStr.isSpace text = true ->
  AutocompleteSuggest text count w = ([], w).
Proof.
  intros Hb. unfold AutocompleteSuggest.
  rewrite (to_search_blank text Hb). reflexivity.
Qed.


(** X24. For a text that is not empty once trimmed and any [count], one
    statement is issued: the query text with the search string, padded with
    spaces to [count] characters, in the place of [%1], and with the place
    marker [%2] still after [LIMIT]; [count] appears nowhere else.  The
    store stays as it was and the call returns the empty list. *)
Theorem AutocompleteSuggest_statement (text : QString) (count : Z) (w : World) :
  QStr.trimmed text <> [] ->
  trace (snd (AutocompleteSuggest text count w))
  = trace w
    ++ [(qs "SELECT ap.url, ap.title, f.url as favicon_url "
         ++ qs "FROM autocomplete_page_fts apf('"
         ++ QStr.pad (to_search text) count
         ++ qs "') "
         ++ qs "  JOIN autocomplete_page ap ON "
         ++ qs "    ap.id = apf.rowid "
         ++ qs "  LEFT JOIN favicon f "
         ++ qs "    ON f.id = ap.favicon_id "
         ++ qs "ORDER BY apf.frecency "
         ++ qs "LIMIT %2", [])]
  /\ store (snd (AutocompleteSuggest text count w)) = store w
  /\ fst (AutocompleteSuggest text count w) = [].
Proof.
  intros Hne.
  rewrite (AutocompleteSuggest_refused text count w (to_search_long text Hne)).
  cbn [fst snd trace store]. split; [|split; reflexivity].
  reflexivity.
Qed.

(** C1 (what the code does). For a URL with a scheme separator and no
    storage fault, [MarkVisit] succeeds and the page row is in the store,
    and still [AutocompleteSuggest] returns the empty list for every text
    and every count. *)
Theorem MarkVisit_then_suggest (url title favicon_url : QString)
        (favicon : QIcon) (w : World) :
  hasSchemeSeparator url ->
  faults w = [] ->
  let after := snd (MarkVisit url title favicon_url favicon w) in
  fst (MarkVisit url title favicon_url favicon w) = true
  /\ (exists r, In r (pages (store after))
                /\ ap_url r = url /\ ap_title r = title)
  /\ forall text count, fst (AutocompleteSuggest text count after) = [].
Proof.
  intros Hs Hf after.
  destruct (FaviconId_frame favicon_url favicon w Hf)
    as (fav & o & w1 & Hfi & Hfav & Hf1 & _).
  pose proof (MarkVisit_after_favicon url title favicon_url favicon w w1 fav o
                Hs Hfav Hfi Hf1) as Hmv.
  subst after. rewrite Hmv. cbn [fst snd store pages].
  split; [reflexivity|]. split.
  - exists (visitRow (store w1) url title o (clock w)).
    split; [apply in_or_app; right; left; reflexivity|]. split; reflexivity.
  - intros text count. apply AutocompleteSuggest_nil.
Qed.

End SuggestClaims.

(** ** The properties at concrete inputs *)

Example sweep_pages_left :
  map ap_id (pages (store (snd (DoExpiration sweepWorld)))) = [2; 3].
Proof. reflexivity. Qed.

Example sweep_favicons_left :
  map f_id (favicons (store (snd (DoExpiration sweepWorld)))) = [1; 3].
Proof. reflexivity. Qed.

Example second_visit_rows :
  map (fun r => (ap_url r, ap_visit_count r, ap_frecency r))
      (pages (store (snd (MarkVisit exampleUrl exampleTitle [] nullIcon visitedOnce))))
  = [(exampleUrl, 1, 5100); (exampleUrl, 1, 6100)].
Proof. reflexivity. Qed.

Example suggest_after_visit :
  fst (AutocompleteSuggest (qs "example") 10 visitedOnce) = [].
Proof. reflexivity. Qed.

Example suggest_two_pages :
  AutocompleteSuggest (qs "example") 1 twoPages
  = ([],
     mkWorld (store twoPages) [] 7000 []
       [(qs "SELECT ap.url, ap.title, f.url as favicon_url "
         ++ qs "FROM autocomplete_page_fts apf(' "
         ++ [dquote] ++ qs "example" ++ [dquote] ++ qs "* ') "
         ++ qs "  JOIN autocomplete_page ap ON "
         ++ qs "    ap.id = apf.rowid "
         ++ qs "  LEFT JOIN favicon f "
         ++ qs "    ON f.id = ap.favicon_id "
         ++ qs "ORDER BY apf.frecency "
         ++ qs "LIMIT %2", [])]).
Proof. reflexivity. Qed.

Example suggest_statement_tail :
  map (fun st => Engine.lastWord (fst st))
      (trace (snd (AutocompleteSuggest (qs "example") 10 (emptyWorld 0))))
  = [qs "%2"].
Proof. reflexivity. Qed.

Lemma exampleUrl_scheme : hasSchemeSeparator exampleUrl.
Proof. exists (qs "https"), (qs "example.com/a"). reflexivity. Defined.

Lemma DoExpiration_pages_witness :
  faults sweepWorld = []
  /\ - 2 ^ 63 <= clock sweepWorld - kExpireNotVisitedSinceSeconds < 2 ^ 63
  /\ (forall r, ap_last_visited r < clock sweepWorld - kExpireNotVisitedSinceSeconds ->
                ~ In r (pages (store (snd (DoExpiration sweepWorld)))))
  /\ (forall r, In r (pages (store sweepWorld)) ->
                clock sweepWorld - kExpireNotVisitedSinceSeconds <= ap_last_visited r ->
                In r (pages (store (snd (DoExpiration sweepWorld))))).
Proof.
  assert (Hrange : - 2 ^ 63 <= clock sweepWorld - kExpireNotVisitedSinceSeconds < 2 ^ 63)
    by (cbn; lia).
  split; [reflexivity|]. split; [exact Hrange|].
  exact (DoExpiration_pages sweepWorld eq_refl Hrange).
Defined.

Lemma DoExpiration_favicons_witness :
  faults sweepWorld = []
  /\ (forall f, In f (favicons (store sweepWorld)) ->
                referencedBy (pages (store (snd (DoExpiration sweepWorld)))) f ->
                ~ In f (favicons (store (snd (DoExpiration sweepWorld)))))
  /\ (forall f, In f (favicons (store sweepWorld)) ->
                ~ referencedBy (pages (store (snd (DoExpiration sweepWorld)))) f ->
                In f (favicons (store (snd (DoExpiration sweepWorld))))).
Proof.
  split; [reflexivity|].
  exact (DoExpiration_favicons sweepWorld eq_refl).
Defined.

Lemma MarkVisit_no_scheme_witness :
  ~ hasSchemeSeparator (qs "not-a-url")
  /\ MarkVisit (qs "not-a-url") (qs "T") [] exampleIcon (emptyWorld 5000)
     = (false, emptyWorld 5000).
Proof.
  assert (Hno : ~ hasSchemeSeparator (qs "not-a-url")).
  { intros Hc. destruct (indexOf_present _ _ Hc) as (k & Hk & _).
    change (QStr.indexOf (qs "not-a-url") (qs "://")) with (-1) in Hk. lia. }
  split; [exact Hno|].
  exact (MarkVisit_no_scheme (qs "not-a-url") (qs "T") [] exampleIcon
                             (emptyWorld 5000) Hno).
Defined.

Lemma MarkVisit_repeated_witness :
  hasSchemeSeparator exampleUrl
  /\ faults (emptyWorld 0) = []
  /\ map visitSummary
         (pages (store (visitAll exampleUrl exampleTitle [] nullIcon
                                 [5000; 6000] (emptyWorld 0))))
     = [(exampleUrl, 1, 5000, 5100); (exampleUrl, 1, 6000, 6100)].
Proof.
  split; [exact exampleUrl_scheme|]. split; [reflexivity|].
  exact (MarkVisit_repeated exampleUrl exampleTitle [] nullIcon [5000; 6000]
                            (emptyWorld 0) exampleUrl_scheme eq_refl).
Defined.

Lemma MarkVisit_lookup_fault_witness :
  hasSchemeSeparator exampleUrl
  /\ exampleFaviconUrl <> []
  /\ isNull exampleIcon = false
  /\ faults (withFaults [true] (emptyWorld 5000)) = [true]
  /\ fst (FaviconId exampleFaviconUrl exampleIcon (withFaults [true] (emptyWorld 5000)))
     = VNull
  /\ fst (MarkVisit exampleUrl exampleTitle exampleFaviconUrl exampleIcon
                    (withFaults [true] (emptyWorld 5000))) = true.
Proof.
  assert (Hu : exampleFaviconUrl <> []) by discriminate.
  split; [exact exampleUrl_scheme|]. split; [exact Hu|].
  split; [reflexivity|]. split; [reflexivity|].
  destruct (MarkVisit_lookup_fault exampleUrl exampleTitle exampleFaviconUrl
              exampleIcon (withFaults [true] (emptyWorld 5000))
              exampleUrl_scheme Hu eq_refl eq_refl) as (Hnull & _ & Hok & _).
  split; [exact Hnull | exact Hok].
Defined.

Lemma FaviconId_twice_witness :
  exampleFaviconUrl <> []
  /\ isNull exampleIcon = false
  /\ isNull changedIcon = false
  /\ faults (emptyWorld 5000) = []
  /\ fst (FaviconId exampleFaviconUrl changedIcon
            (snd (FaviconId exampleFaviconUrl exampleIcon (emptyWorld 5000))))
     = fst (FaviconId exampleFaviconUrl exampleIcon (emptyWorld 5000)).
Proof.
  assert (Hu : exampleFaviconUrl <> []) by discriminate.
  split; [exact Hu|]. split; [reflexivity|]. split; [reflexivity|].
  split; [reflexivity|].
  destruct (FaviconId_twice exampleFaviconUrl exampleIcon changedIcon
              (emptyWorld 5000) Hu eq_refl eq_refl eq_refl)
    as (f & _ & _ & _ & Hsame & _).
  exact Hsame.
Defined.

Lemma AutocompleteSuggest_blank_witness :
  forallb QStr.isSpace (qs "   ") = true
  /\ AutocompleteSuggest (qs "   ") 10 visitedOnce = ([], visitedOnce).
Proof.
  split; [reflexivity|].
  exact (AutocompleteSuggest_blank (qs "   ") 10 visitedOnce eq_refl).
Defined.

Lemma AutocompleteSuggest_statement_witness :
  QStr.trimmed (qs " example ") <> []
  /\ fst (AutocompleteSuggest (qs " example ") 10 visitedOnce) = [].
Proof.
  assert (Hne : QStr.trimmed (qs " example ") <> []) by discriminate.
  split; [exact Hne|].
  destruct (AutocompleteSuggest_statement (qs " example ") 10 visitedOnce Hne)
    as (_ & _ & Hnil).
  exact Hnil.
Defined.

Lemma MarkVisit_then_suggest_witness :
  hasSchemeSeparator exampleUrl
  /\ faults (emptyWorld 5000) = []
  /\ fst (MarkVisit exampleUrl exampleTitle exampleFaviconUrl exampleIcon
                    (emptyWorld 5000)) = true
  /\ fst (AutocompleteSuggest (qs "example") 10
            (snd (MarkVisit exampleUrl exampleTitle exampleFaviconUrl exampleIcon
                            (emptyWorld 5000)))) = [].
Proof.
  split; [exact exampleUrl_scheme|]. split; [reflexivity|].
  destruct (MarkVisit_then_suggest exampleUrl exampleTitle exampleFaviconUrl
              exampleIcon (emptyWorld 5000) exampleUrl_scheme eq_refl)
    as (Hok & _ & Hnil).
  split; [exact Hok | exact (Hnil (qs "example") 10)].
Defined.

(** * Further properties *)

(** ** Where the separator is *)

Lemma indexOfFrom_found (needle s : QString) (i : Z) :
  QStr.indexOfFrom s needle i <> -1 -> 0 <= i -> contains s needle.
Proof.
  revert i. induction s as [|c s IH]; intros i Hfound Hi.
  - simpl in Hfound. destruct (QStr.startsWith [] needle) eqn:Hp; [|congruence].
    apply startsWith_inv in Hp as [r Hr]. exists [], r. exact Hr.
  - simpl in Hfound. destruct (QStr.startsWith (c :: s) needle) eqn:Hp.
    + apply startsWith_inv in Hp as [r Hr]. exists [], r. exact Hr.
    + destruct (IH (i + 1) Hfound) as (pre & post & ->); [lia|].
      exists (c :: pre), post. reflexivity.
Qed.

Lemma indexOf_present_dec (s needle : QString) :
  contains s needle \/ ~ contains s needle.
Proof.
  destruct (Z.eq_dec (QStr.indexOf s needle) (-1)) as [Hno|Hyes].
  - right. intros Hc. destruct (indexOf_present s needle Hc) as (k & Hk & _). lia.
  - left. apply (indexOfFrom_found needle s 0 Hyes). lia.
Qed.

(** ** Statements under any schedule of faults *)

Section RunningAny.
Context `{Externals}.

Lemma execute_ok (sql : QString) (params : list QVariant) (w : World)
      (st : Store) (a : Engine.Answer) :
  failsNext w = false ->
  Engine.run sql params (store w) = Some (st, a) ->
  execute sql params w =
    (mkQuery false (Engine.ansRows a) (Engine.ansAffected a) (Engine.ansInsertId a),
     stepped w st (tl (faults w)) [(sql, params)]).
Proof.
  intros Hf Hr. unfold execute, stepped. unfold failsNext, hd in Hf.
  rewrite Hf, Hr. reflexivity.
Qed.

Lemma execute_failed (sql : QString) (params : list QVariant) (w : World) :
  failsNext w = true ->
  execute sql params w =
    (failedQuery, stepped w (store w) (tl (faults w)) [(sql, params)]).
Proof.
  intros Hf. unfold execute, stepped. unfold failsNext, hd in Hf.
  rewrite Hf. reflexivity.
Qed.

Lemma stepped_twice (w : World) (st st' : Store) (l l' : list bool)
      (s s' : list (QString * list QVariant)) :
  stepped (stepped w st l s) st' l' s' = stepped w st' l' (s ++ s').
Proof. unfold stepped. cbn. now rewrite app_assoc. Qed.

Lemma FaviconId_skipped (url : QString) (favicon : QIcon) (w : World) :
  url = [] \/ isNull favicon = true -> FaviconId url favicon w = (VNull, w).
Proof.
  intros [->|Hn]; [reflexivity|].
  unfold FaviconId. rewrite Hn, orb_true_r. reflexivity.
Qed.

Ltac favicon_lookup Hu Hn :=
  unfold FaviconId;
  match goal with
  | |- context [QStr.isEmpty ?u] =>
      destruct u as [|?c ?u']; [congruence|]
  end;
  cbn [QStr.isEmpty QStr.nonEmpty negb orb]; rewrite Hn;
  unfold bind, ExecSingleParam, ExecParam, bind, ret.

Lemma FaviconId_lookup_failed (url : QString) (favicon : QIcon) (w : World) :
  url <> [] -> isNull favicon = false -> failsNext w = true ->
  FaviconId url favicon w
  = (VNull,
     stepped w (store w) (tl (faults w)) [(sql_select_favicon, lookupParams url)]).
Proof.
  intros Hu Hn Hf. favicon_lookup Hu Hn.
  rewrite execute_failed by exact Hf. reflexivity.
Qed.

Lemma FaviconId_found_same (url : QString) (favicon : QIcon) (w : World)
      (f : FaviconRow) (more : list FaviconRow) :
  url <> [] -> isNull favicon = false -> failsNext w = false ->
  hitsOf url (store w) = f :: more ->
  cacheKey favicon = f_data_key f ->
  FaviconId url favicon w
  = (VInt (f_id f),
     stepped w (store w) (tl (faults w)) [(sql_select_favicon, lookupParams url)]).
Proof.
  intros Hu Hn Hf Hhits Hkey. favicon_lookup Hu Hn.
  erewrite execute_ok; [| exact Hf | rewrite run_select_favicon; reflexivity].
  cbn [Engine.ansRows resultRows fst snd lastErrorIsValid].
  unfold hitsOf in Hhits. rewrite Hhits. cbn [map recordIsEmpty negb].
  change (toLongLong (value (qs "data_key")
            [(qs "id", VInt (f_id f)); (qs "data_key", VInt (f_data_key f))]))
    with (f_data_key f).
  rewrite Hkey, Z.eqb_refl. reflexivity.
Qed.

Lemma FaviconId_found_changed (url : QString) (favicon : QIcon) (w : World)
      (f : FaviconRow) (more : list FaviconRow) :
  url <> [] -> isNull favicon = false -> failsNext w = false ->
  hitsOf url (store w) = f :: more ->
  cacheKey favicon <> f_data_key f ->
  FaviconId url favicon w
  = (VInt (f_id f),
     stepped w
       (if failsSecond w then store w
        else mkStore (pages (store w))
                     (faviconsUpdated favicon (f_id f) (favicons (store w))))
       (tl (tl (faults w)))
       [(sql_select_favicon, lookupParams url);
        updateFaviconStmt favicon (f_id f)]).
Proof.
  intros Hu Hn Hf Hhits Hkey. favicon_lookup Hu Hn.
  erewrite execute_ok; [| exact Hf | rewrite run_select_favicon; reflexivity].
  cbn [Engine.ansRows resultRows fst snd lastErrorIsValid].
  unfold hitsOf in Hhits. rewrite Hhits. cbn [map recordIsEmpty negb].
  change (toLongLong (value (qs "data_key")
            [(qs "id", VInt (f_id f)); (qs "data_key", VInt (f_data_key f))]))
    with (f_data_key f).
  change (value (qs "id")
            [(qs "id", VInt (f_id f)); (qs "data_key", VInt (f_data_key f))])
    with (VInt (f_id f)).
  apply Z.eqb_neq in Hkey. rewrite Hkey. cbn [negb].
  unfold failsSecond.
  destruct (hd false (tl (faults w))) eqn:Hf2.
  - rewrite execute_failed by exact Hf2. rewrite stepped_twice. reflexivity.
  - erewrite execute_ok; [| exact Hf2 | rewrite run_update_favicon; reflexivity].
    rewrite stepped_twice. reflexivity.
Qed.

Lemma FaviconId_absent (url : QString) (favicon : QIcon) (w : World) :
  url <> [] -> isNull favicon = false -> failsNext w = false ->
  hitsOf url (store w) = [] ->
  FaviconId url favicon w
  = (if failsSecond w then VNull
     else VInt (Engine.freshId (map f_id (favicons (store w)))),
     stepped w
       (if failsSecond w then store w
        else mkStore (pages (store w))
                     (faviconsInserted url favicon (favicons (store w))))
       (tl (tl (faults w)))
       [(sql_select_favicon, lookupParams url); insertFaviconStmt url favicon]).
Proof.
  intros Hu Hn Hf Hhits. favicon_lookup Hu Hn.
  erewrite execute_ok; [| exact Hf | rewrite run_select_favicon; reflexivity].
  cbn [Engine.ansRows resultRows fst snd lastErrorIsValid].
  unfold hitsOf in Hhits. rewrite Hhits. cbn [map recordIsEmpty negb].
  unfold failsSecond.
  destruct (hd false (tl (faults w))) eqn:Hf2.
  - rewrite execute_failed by exact Hf2. rewrite stepped_twice. reflexivity.
  - erewrite execute_ok; [| exact Hf2 | rewrite run_insert_favicon; reflexivity].
    rewrite stepped_twice. reflexivity.
Qed.

End RunningAny.

Lemma stepped_nothing (w : World) : stepped w (store w) (faults w) [] = w.
Proof. destruct w. unfold stepped. cbn. now rewrite app_nil_r. Qed.

Lemma store_eta (st : Store) : mkStore (pages st) (favicons st) = st.
Proof. destruct st. reflexivity. Qed.

Section UpsertAny.
Context `{Externals}.

(** Whatever the faults, [FaviconId] yields NULL or an id and leaves a world
    that differs from the one before in favicon rows, faults consumed and
    statements logged only; the favicon rows are as before, or one row was
    added for a URL that had none, or the rows with the id found were
    rewritten. *)
Lemma FaviconId_effect (url : QString) (favicon : QIcon) (w : World) :
  exists o fs later stmts,
    FaviconId url favicon w
    = (match o with None => VNull | Some i => VInt i end,
       stepped w (mkStore (pages (store w)) fs) later stmts)
    /\ (List.length stmts <= 2)%nat
    /\ (fs = favicons (store w)
        \/ (hitsOf url (store w) = []
            /\ fs = faviconsInserted url favicon (favicons (store w)))
        \/ (exists f more,
              hitsOf url (store w) = f :: more
              /\ fs = faviconsUpdated favicon (f_id f) (favicons (store w)))).
Proof.
  destruct url as [|c u].
  { exists None, (favicons (store w)), (faults w), [].
    rewrite store_eta, stepped_nothing. repeat split; auto. }
  destruct (isNull favicon) eqn:Hn.
  { exists None, (favicons (store w)), (faults w), [].
    rewrite store_eta, stepped_nothing.
    rewrite FaviconId_skipped by (right; exact Hn). repeat split; auto. }
  assert (Hu : c :: u <> []) by discriminate.
  destruct (failsNext w) eqn:Hf.
  { exists None, (favicons (store w)), (tl (faults w)),
           [(sql_select_favicon, lookupParams (c :: u))].
    rewrite store_eta.
    rewrite (FaviconId_lookup_failed _ _ _ Hu Hn Hf). repeat split; auto. }
  destruct (hitsOf (c :: u) (store w)) as [|f more] eqn:Hhits.
  - rewrite (FaviconId_absent _ _ _ Hu Hn Hf Hhits).
    destruct (failsSecond w).
    + exists None, (favicons (store w)), (tl (tl (faults w))),
             [(sql_select_favicon, lookupParams (c :: u));
              insertFaviconStmt (c :: u) favicon].
      rewrite store_eta. repeat split; auto.
    + exists (Some (Engine.freshId (map f_id (favicons (store w))))),
             (faviconsInserted (c :: u) favicon (favicons (store w))),
             (tl (tl (faults w))),
             [(sql_select_favicon, lookupParams (c :: u));
              insertFaviconStmt (c :: u) favicon].
      repeat split; auto.
  - destruct (Z.eq_dec (cacheKey favicon) (f_data_key f)) as [Hk|Hk].
    + exists (Some (f_id f)), (favicons (store w)), (tl (faults w)),
             [(sql_select_favicon, lookupParams (c :: u))].
      rewrite store_eta.
      rewrite (FaviconId_found_same _ _ _ f more Hu Hn Hf Hhits Hk).
      repeat split; auto.
    + rewrite (FaviconId_found_changed _ _ _ f more Hu Hn Hf Hhits Hk).
      destruct (failsSecond w).
      * exists (Some (f_id f)), (favicons (store w)), (tl (tl (faults w))),
               [(sql_select_favicon, lookupParams (c :: u));
                updateFaviconStmt favicon (f_id f)].
        rewrite store_eta. repeat split; auto.
      * exists (Some (f_id f)),
               (faviconsUpdated favicon (f_id f) (favicons (store w))),
               (tl (tl (faults w))),
               [(sql_select_favicon, lookupParams (c :: u));
                updateFaviconStmt favicon (f_id f)].
        split; [reflexivity|]. split; [auto|].
        right. right. exists f, more. split; reflexivity.
Qed.

(** X1. Whatever the URL, the icon, the store and the faults, [FaviconId]
    returns a null variant or an integer id, issues at most two statements,
    and leaves the page rows, the pixmap cache and the clock as they were. *)
Theorem FaviconId_touches_favicons_only (url : QString) (favicon : QIcon)
        (w : World) :
  (fst (FaviconId url favicon w) = VNull
   \/ exists id, fst (FaviconId url favicon w) = VInt id)
  /\ pages (store (snd (FaviconId url favicon w))) = pages (store w)
  /\ pixmapCache (snd (FaviconId url favicon w)) = pixmapCache w
  /\ clock (snd (FaviconId url favicon w)) = clock w
  /\ exists stmts,
       trace (snd (FaviconId url favicon w)) = trace w ++ stmts
       /\ (List.length stmts <= 2)%nat.
Proof.
  destruct (FaviconId_effect url favicon w)
    as (o & fs & later & stmts & Heq & Hlen & _).
  rewrite Heq. cbn [fst snd stepped store pages pixmapCache clock trace].
  split; [destruct o as [i|]; [right; exists i|left]; reflexivity|].
  repeat split. exists stmts. split; [reflexivity | exact Hlen].
Qed.

(** X2. When the lookup finds no row and the storage then fails the INSERT,
    [FaviconId] returns a null variant and the store is as it was; both
    statements were issued. *)
Theorem FaviconId_insert_fault (url : QString) (favicon : QIcon) (w : World) :
  url <> [] -> isNull favicon = false ->
  failsNext w = false -> failsSecond w = true ->
  hitsOf url (store w) = [] ->
  fst (FaviconId url favicon w) = VNull
  /\ store (snd (FaviconId url favicon w)) = store w
  /\ trace (snd (FaviconId url favicon w))
     = trace w ++ [(sql_select_favicon, lookupParams url);
                   insertFaviconStmt url favicon].
Proof.
  intros Hu Hn Hf Hf2 Hhits.
  rewrite (FaviconId_absent url favicon w Hu Hn Hf Hhits), Hf2.
  repeat split.
Qed.

(** X3. When the lookup finds a row with another fingerprint and the storage
    fails the UPDATE, the failure is ignored: [FaviconId] still returns the
    id of the row found, and the store is as it was. *)
Theorem FaviconId_update_fault (url : QString) (favicon : QIcon) (w : World)
        (f : FaviconRow) :
  url <> [] -> isNull favicon = false ->
  failsNext w = false -> failsSecond w = true ->
  storedFavicon url (store w) = Some f ->
  cacheKey favicon <> f_data_key f ->
  fst (FaviconId url favicon w) = VInt (f_id f)
  /\ store (snd (FaviconId url favicon w)) = store w
  /\ trace (snd (FaviconId url favicon w))
     = trace w ++ [(sql_select_favicon, lookupParams url);
                   updateFaviconStmt favicon (f_id f)].
Proof.
  intros Hu Hn Hf Hf2 Hst Hk. unfold storedFavicon in Hst.
  destruct (hitsOf url (store w)) as [|f0 more] eqn:Hhits; [discriminate|].
  injection Hst as ->.
  rewrite (FaviconId_found_changed url favicon w f more Hu Hn Hf Hhits Hk), Hf2.
  repeat split.
Qed.

Lemma hitsOf_updated (url : QString) (favicon : QIcon) (id : Z)
      (ps : list PageRow) (fs : list FaviconRow) :
  hitsOf url (mkStore ps (faviconsUpdated favicon id fs))
  = faviconsUpdated favicon id (hitsOf url (mkStore ps fs)).
Proof.
  unfold hitsOf, faviconsUpdated. cbn [favicons].
  apply filter_map_same. intros x. destruct (f_id x =? id); reflexivity.
Qed.

Lemma hitsOf_inserted (url url' : QString) (favicon : QIcon)
      (ps : list PageRow) (fs : list FaviconRow) :
  hitsOf url' (mkStore ps (faviconsInserted url favicon fs))
  = hitsOf url' (mkStore ps fs)
    ++ (if QStr.eqb url url' && (HashString url =? HashString url')
        then [mkFavicon (Engine.freshId (map f_id fs)) url (HashString url)
                        (cacheKey favicon) (pngData favicon)]
        else []).
Proof.
  unfold hitsOf, faviconsInserted. cbn [favicons].
  rewrite filter_app. f_equal. cbn [filter].
  unfold Engine.faviconHit. cbn [Engine.intColumnEq Engine.textColumnEq f_url f_url_hash].
  rewrite andb_comm. reflexivity.
Qed.

(** X4. [FaviconId] keeps the favicon table at one row per URL at most:
    if no URL has more than one row answering its lookup before the call,
    none has after it, whatever the faults. *)
Theorem FaviconId_one_row_per_url (url : QString) (favicon : QIcon) (w : World) :
  onePerUrl (store w) -> onePerUrl (store (snd (FaviconId url favicon w))).
Proof.
  intros Hone url'.
  destruct (FaviconId_effect url favicon w)
    as (o & fs & later & stmts & Heq & _ & Hfs).
  rewrite Heq. cbn [snd stepped store].
  pose proof (Hone url') as Hbefore.
  rewrite <- (store_eta (store w)) in Hbefore.
  destruct Hfs as [-> | [(Hnone & ->) | (f & more & _ & ->)]].
  - exact Hbefore.
  - rewrite hitsOf_inserted.
    destruct (QStr.eqb url url' && (HashString url =? HashString url')) eqn:Hsame.
    + apply andb_prop in Hsame as [Hq _]. apply qstr_eqb_eq in Hq. subst url'.
      rewrite store_eta, Hnone. cbn. lia.
    + rewrite app_nil_r. exact Hbefore.
  - rewrite hitsOf_updated. unfold faviconsUpdated. rewrite length_map.
    exact Hbefore.
Qed.

End UpsertAny.

(** ** A visit under any schedule of faults *)

Section VisitAny.
Context `{Externals}.

Lemma asOptInt_result (o : option Z) :
  Engine.asOptInt (match o with None => VNull | Some i => VInt i end) = Some o.
Proof. destruct o; reflexivity. Qed.

(** A visit of a URL with a scheme separator, after the favicon resolution
    has left the world [w1]: the UPDATE hits nothing; the result is true,
    and a row is added, exactly when the storage fails neither the UPDATE
    nor the INSERT; a failed UPDATE ends the call. *)
Lemma MarkVisit_outcome (url title favicon_url : QString) (favicon : QIcon)
      (w w1 : World) (o : option Z) :
  hasSchemeSeparator url ->
  FaviconId favicon_url favicon w
  = (match o with None => VNull | Some i => VInt i end, w1) ->
  let fav := match o with None => VNull | Some i => VInt i end in
  let upd := (sql_update_page, updateParams url title fav (clock w)) in
  let ins := (sql_insert_page, insertParams url title fav (clock w)) in
  MarkVisit url title favicon_url favicon w
  = if failsNext w1 then
      (false, stepped w1 (store w1) (tl (faults w1)) [upd])
    else if failsSecond w1 then
      (false, stepped w1 (store w1) (tl (tl (faults w1))) [upd; ins])
    else
      (true,
       stepped w1
         (mkStore (pages (store w1) ++ [visitRow (store w1) url title o (clock w)])
                  (favicons (store w1)))
         (tl (tl (faults w1))) [upd; ins]).
Proof.
  intros Hs Hfi fav upd ins. unfold MarkVisit.
  rewrite (indexOf_scheme url Hs).
  unfold bind, currentSecsSinceEpoch, ExecParam, ret. rewrite Hfi.
  destruct (failsNext w1) eqn:Hf1.
  { rewrite execute_failed by exact Hf1. reflexivity. }
  erewrite execute_ok;
    [| exact Hf1
     | rewrite run_update_page; apply (updatePage_miss _ _ _ _ o);
       [assumption | apply asOptInt_result]].
  cbn [ok lastErrorIsValid negb numRowsAffected Engine.ansAffected Z.ltb Z.compare].
  unfold failsSecond.
  destruct (hd false (tl (faults w1))) eqn:Hf2.
  { rewrite execute_failed by exact Hf2. rewrite stepped_twice. reflexivity. }
  erewrite execute_ok; [| exact Hf2 |].
  2:{ rewrite run_insert_page. unfold Engine.insertPage.
      cbn [Engine.asText Engine.asInt store stepped].
      rewrite asOptInt_result. reflexivity. }
  rewrite stepped_twice. reflexivity.
Qed.

(** Whatever the URL and the faults: the call returns true having added one
    row for the URL at the end of the table, or false having left the page
    rows as they were. *)
Lemma MarkVisit_pages (url title favicon_url : QString) (favicon : QIcon)
      (w : World) :
  (fst (MarkVisit url title favicon_url favicon w) = true
   /\ exists fav,
        pages (store (snd (MarkVisit url title favicon_url favicon w)))
        = pages (store w) ++ [visitRow (store w) url title fav (clock w)])
  \/ (fst (MarkVisit url title favicon_url favicon w) = false
      /\ pages (store (snd (MarkVisit url title favicon_url favicon w)))
         = pages (store w)).
Proof.
  destruct (Z.eq_dec (QStr.indexOf url (qs "://")) (-1)) as [Hno|Hyes].
  { right. unfold MarkVisit. rewrite Hno. split; reflexivity. }
  assert (Hs : hasSchemeSeparator url).
  { destruct (indexOf_present_dec url (qs "://")) as [Hc|Hc]; [exact Hc|].
    exfalso. apply Hyes. apply indexOf_absent. exact Hc. }
  destruct (FaviconId_effect favicon_url favicon w)
    as (o & fs & later & stmts & Heq & _ & _).
  rewrite (MarkVisit_outcome url title favicon_url favicon w _ o Hs Heq).
  destruct (failsNext _); [right; split; reflexivity|].
  destruct (failsSecond _); [right; split; reflexivity|].
  left. split; [reflexivity|]. exists o. reflexivity.
Qed.

End VisitAny.

Lemma indexOfFrom_least (needle pre post : QString) (i : Z) :
  exists k,
    QStr.indexOfFrom (pre ++ needle ++ post) needle i = i + Z.of_nat k
    /\ (k <= List.length pre)%nat
    /\ pre ++ needle ++ post
       = firstn k (pre ++ needle ++ post) ++ needle
         ++ skipn (k + List.length needle) (pre ++ needle ++ post).
Proof.
  revert i. induction pre as [|c pre IH]; intros i.
  - exists 0%nat. cbn [app firstn Nat.add].
    rewrite indexOfFrom_head by apply startsWith_app.
    split; [lia|]. split; [reflexivity|].
    rewrite skipn_app, skipn_all, Nat.sub_diag. reflexivity.
  - cbn [app]. simpl QStr.indexOfFrom.
    destruct (QStr.startsWith (c :: pre ++ needle ++ post) needle) eqn:Hp.
    + exists 0%nat. split; [lia|]. split; [cbn; lia|].
      apply startsWith_inv in Hp as [r Hr]. rewrite Hr.
      cbn [firstn Nat.add app].
      rewrite skipn_app, skipn_all, Nat.sub_diag. reflexivity.
    + destruct (IH (i + 1)) as (k & Hk & Hle & Hsplit).
      exists (S k). split; [rewrite Hk; lia|]. split; [cbn; lia|].
      cbn [firstn Nat.add skipn app]. f_equal. exact Hsplit.
Qed.

Section VisitExtras.
Context `{Externals}.

(** X5. Whatever the URL, the favicon and the faults, the result of
    [MarkVisit] tells what happened to the page rows: after true, exactly
    one row was added at the end, for this URL and title, with visit count
    1, the clock as time of the last visit and the clock plus
    [kVisitTimeWorthSeconds] as frecency; after false, the page rows are as
    they were.  No existing row is ever changed or removed. *)
Theorem MarkVisit_result_tells (url title favicon_url : QString)
        (favicon : QIcon) (w : World) :
  (fst (MarkVisit url title favicon_url favicon w) = true ->
   exists id fav,
     pages (store (snd (MarkVisit url title favicon_url favicon w)))
     = pages (store w)
       ++ [mkPage id url (HashString url)
                  (QStr.mid url (QStr.indexOf url (qs "://") + 3))
                  title fav (clock w) 1
                  (wrap64 (clock w + kVisitTimeWorthSeconds))])
  /\ (fst (MarkVisit url title favicon_url favicon w) = false ->
      pages (store (snd (MarkVisit url title favicon_url favicon w)))
      = pages (store w)).
Proof.
  destruct (MarkVisit_pages url title favicon_url favicon w)
    as [(Ht & fav & Hrows) | (Hf & Hrows)].
  - split; [|congruence]. intros _.
    exists (Engine.freshId (map ap_id (pages (store w)))), fav. exact Hrows.
  - split; [congruence|]. intros _. exact Hrows.
Qed.

(** X6. For a URL with a scheme separator, when the storage fails the
    UPDATE, [MarkVisit] returns false without trying the INSERT: the UPDATE
    is the last statement issued and the store is as the favicon resolution
    left it. *)
Theorem MarkVisit_update_fault (url title favicon_url : QString)
        (favicon : QIcon) (w : World) :
  hasSchemeSeparator url ->
  failsNext (snd (FaviconId favicon_url favicon w)) = true ->
  fst (MarkVisit url title favicon_url favicon w) = false
  /\ store (snd (MarkVisit url title favicon_url favicon w))
     = store (snd (FaviconId favicon_url favicon w))
  /\ trace (snd (MarkVisit url title favicon_url favicon w))
     = trace (snd (FaviconId favicon_url favicon w))
       ++ [(sql_update_page,
            updateParams url title (fst (FaviconId favicon_url favicon w))
                         (clock w))].
Proof.
  intros Hs Hf.
  destruct (FaviconId_effect favicon_url favicon w)
    as (o & fs & later & stmts & Heq & _ & _).
  rewrite (MarkVisit_outcome url title favicon_url favicon w _ o Hs Heq).
  rewrite Heq in Hf |- *. cbn [fst snd] in Hf |- *. rewrite Hf.
  repeat split.
Qed.

(** X7. For a URL with a scheme separator, when the UPDATE runs and the
    storage fails the INSERT, [MarkVisit] returns false and the store is as
    the favicon resolution left it: the visit is lost. *)
Theorem MarkVisit_insert_fault (url title favicon_url : QString)
        (favicon : QIcon) (w : World) :
  hasSchemeSeparator url ->
  failsNext (snd (FaviconId favicon_url favicon w)) = false ->
  failsSecond (snd (FaviconId favicon_url favicon w)) = true ->
  fst (MarkVisit url title favicon_url favicon w) = false
  /\ store (snd (MarkVisit url title favicon_url favicon w))
     = store (snd (FaviconId favicon_url favicon w))
  /\ trace (snd (MarkVisit url title favicon_url favicon w))
     = trace (snd (FaviconId favicon_url favicon w))
       ++ [(sql_update_page,
            updateParams url title (fst (FaviconId favicon_url favicon w))
                         (clock w));
           (sql_insert_page,
            insertParams url title (fst (FaviconId favicon_url favicon w))
                         (clock w))].
Proof.
  intros Hs Hf Hf2.
  destruct (FaviconId_effect favicon_url favicon w)
    as (o & fs & later & stmts & Heq & _ & _).
  rewrite (MarkVisit_outcome url title favicon_url favicon w _ o Hs Heq).
  rewrite Heq in Hf, Hf2 |- *. cbn [fst snd] in Hf, Hf2 |- *. rewrite Hf, Hf2.
  repeat split.
Qed.

(** X8. [MarkVisit] keeps the score formula: when every page row has
    [frecency = last_visited + visit_count * kVisitTimeWorthSeconds] before
    the call and the clock plus [kVisitTimeWorthSeconds] is inside the
    [qint64] range, every page row has it after the call, whatever the URL
    and the faults. *)
Theorem MarkVisit_keeps_frecency (url title favicon_url : QString)
        (favicon : QIcon) (w : World) :
  - 2 ^ 63 <= clock w + kVisitTimeWorthSeconds < 2 ^ 63 ->
  Forall frecencyOk (pages (store w)) ->
  Forall frecencyOk
         (pages (store (snd (MarkVisit url title favicon_url favicon w)))).
Proof.
  intros Hrange Hall.
  destruct (MarkVisit_pages url title favicon_url favicon w)
    as [(_ & fav & ->) | (_ & ->)]; [|exact Hall].
  apply Forall_app. split; [exact Hall|].
  constructor; [|constructor].
  unfold frecencyOk, visitRow. cbn [ap_frecency ap_last_visited ap_visit_count].
  rewrite (wrap64_small _ Hrange). lia.
Qed.

(** X9. After a successful [MarkVisit] the row added splits the URL at its
    first scheme separator: the URL is a scheme, then ["://"], then the
    stored [schemeless_url], and no ["://"] starts before the end of that
    scheme. *)
Theorem MarkVisit_schemeless (url title favicon_url : QString)
        (favicon : QIcon) (w : World) :
  fst (MarkVisit url title favicon_url favicon w) = true ->
  exists row scheme,
    pages (store (snd (MarkVisit url title favicon_url favicon w)))
    = pages (store w) ++ [row]
    /\ ap_url row = url
    /\ url = scheme ++ qs "://" ++ ap_schemeless_url row
    /\ forall pre post,
         url = pre ++ qs "://" ++ post ->
         (List.length scheme <= List.length pre)%nat.
Proof.
  intros Hok.
  destruct (MarkVisit_pages url title favicon_url favicon w)
    as [(_ & fav & Hrows) | (Hf & _)]; [|congruence].
  destruct (Z.eq_dec (QStr.indexOf url (qs "://")) (-1)) as [Hno|Hyes].
  { unfold MarkVisit in Hok. rewrite Hno in Hok. discriminate. }
  destruct (indexOf_present_dec url (qs "://")) as [Hc|Hc];
    [|exfalso; apply Hyes; apply indexOf_absent; exact Hc].
  destruct Hc as (pre0 & post0 & Hurl).
  destruct (indexOfFrom_least (qs "://") pre0 post0 0) as (k & Hk & _ & Hsplit).
  rewrite <- Hurl in Hk, Hsplit. fold (QStr.indexOf url (qs "://")) in Hk.
  exists (visitRow (store w) url title fav (clock w)), (firstn k url).
  split; [exact Hrows|]. split; [reflexivity|]. split.
  - unfold visitRow. cbn [ap_schemeless_url]. unfold QStr.mid. rewrite Hk.
    replace (Z.to_nat (0 + Z.of_nat k + 3)) with (k + 3)%nat by lia.
    exact Hsplit.
  - intros pre post Hpre.
    destruct (indexOfFrom_least (qs "://") pre post 0) as (k' & Hk' & Hle & _).
    rewrite <- Hpre in Hk'. fold (QStr.indexOf url (qs "://")) in Hk'.
    rewrite Hk in Hk'. assert (k = k') by lia. subst k'.
    rewrite length_firstn. lia.
Qed.

(** X10. [MarkVisit] keeps the favicon table at one row per URL at most,
    whatever the URL, the favicon and the faults. *)
Theorem MarkVisit_one_row_per_url (url title favicon_url : QString)
        (favicon : QIcon) (w : World) :
  onePerUrl (store w) ->
  onePerUrl (store (snd (MarkVisit url title favicon_url favicon w))).
Proof.
  intros Hone.
  destruct (Z.eq_dec (QStr.indexOf url (qs "://")) (-1)) as [Hno|Hyes].
  { unfold MarkVisit. rewrite Hno. exact Hone. }
  assert (Hs : hasSchemeSeparator url).
  { destruct (indexOf_present_dec url (qs "://")) as [Hc|Hc]; [exact Hc|].
    exfalso. apply Hyes. apply indexOf_absent. exact Hc. }
  assert (Hone1 : onePerUrl (store (snd (FaviconId favicon_url favicon w)))).
  { intros url'.
    destruct (FaviconId_effect favicon_url favicon w)
      as (o & fs & later & stmts & Heq & _ & Hfs).
    rewrite Heq. cbn [snd stepped store].
    pose proof (Hone url') as Hbefore.
    rewrite <- (store_eta (store w)) in Hbefore.
    destruct Hfs as [-> | [(Hnone & ->) | (f & more & _ & ->)]].
    - exact Hbefore.
    - rewrite hitsOf_inserted.
      destruct (QStr.eqb favicon_url url'
                && (HashString favicon_url =? HashString url')) eqn:Hsame.
      + apply andb_prop in Hsame as [Hq _]. apply qstr_eqb_eq in Hq. subst url'.
        rewrite store_eta, Hnone. cbn. lia.
      + rewrite app_nil_r. exact Hbefore.
    - rewrite hitsOf_updated. unfold faviconsUpdated. rewrite length_map.
      exact Hbefore. }
  destruct (FaviconId_effect favicon_url favicon w)
    as (o & fs & later & stmts & Heq & _ & _).
  rewrite (MarkVisit_outcome url title favicon_url favicon w _ o Hs Heq).
  rewrite Heq in Hone1. cbn [snd] in Hone1.
  destruct (failsNext _); [exact Hone1|].
  destruct (failsSecond _); [exact Hone1|].
  intros url'. exact (Hone1 url').
Qed.

End VisitExtras.

(** ** The sweep under any schedule of faults *)

Lemma filter_twice {A} (p : A -> bool) (l : list A) :
  filter p (filter p l) = filter p l.
Proof.
  induction l as [|x l IH]; simpl; [reflexivity|].
  destruct (p x) eqn:Hp; simpl; rewrite ?Hp, IH; reflexivity.
Qed.

Section SweepAny.
Context `{Externals}.

(** The two DELETE statements are issued whatever the first one does; a
    statement the storage fails removes nothing. *)
Lemma DoExpiration_outcome (w : World) :
  let ps := if failsNext w then pages (store w) else keptPages w in
  let fs := if failsSecond w then favicons (store w)
            else filter (fun f => negb (Engine.referenced ps f))
                        (favicons (store w)) in
  DoExpiration w
  = (tt,
     stepped w (mkStore ps fs) (tl (tl (faults w)))
             [(sql_delete_pages, [VInt (cutoff w)]); (sql_delete_favicons, [])]).
Proof.
  intros ps fs. subst ps fs.
  unfold DoExpiration, bind, currentSecsSinceEpoch, ExecParam, Exec, ret.
  fold (cutoff w).
  destruct (failsNext w) eqn:Hf1.
  - rewrite execute_failed by exact Hf1.
    unfold failsSecond. destruct (hd false (tl (faults w))) eqn:Hf2.
    + rewrite execute_failed by exact Hf2. rewrite stepped_twice, store_eta.
      reflexivity.
    + erewrite execute_ok; [| exact Hf2 | rewrite run_delete_favicons; reflexivity].
      rewrite stepped_twice. reflexivity.
  - erewrite execute_ok; [| exact Hf1 | rewrite run_delete_pages; reflexivity].
    unfold failsSecond. destruct (hd false (tl (faults w))) eqn:Hf2.
    + rewrite execute_failed by exact Hf2. rewrite stepped_twice. reflexivity.
    + erewrite execute_ok; [| exact Hf2 | rewrite run_delete_favicons; reflexivity].
      rewrite stepped_twice. reflexivity.
Qed.

(** X11. Whatever the faults, a sweep issues its two DELETE statements, in
    order, and only removes: every page row and every favicon row left was
    there before, and the pixmap cache and the clock are as they were. *)
Theorem DoExpiration_only_removes (w : World) :
  (forall r, In r (pages (store (snd (DoExpiration w)))) ->
             In r (pages (store w)))
  /\ (forall f, In f (favicons (store (snd (DoExpiration w)))) ->
                In f (favicons (store w)))
  /\ pixmapCache (snd (DoExpiration w)) = pixmapCache w
  /\ clock (snd (DoExpiration w)) = clock w
  /\ trace (snd (DoExpiration w))
     = trace w ++ [(sql_delete_pages,
                    [VInt (wrap64 (clock w - kExpireNotVisitedSinceSeconds))]);
                   (sql_delete_favicons, [])].
Proof.
  rewrite DoExpiration_outcome.
  cbn [snd stepped store pages favicons pixmapCache clock trace].
  split; [|split; [|repeat split]].
  - intros r. destruct (failsNext w); [auto|].
    unfold keptPages. intros Hin. apply filter_In in Hin. tauto.
  - intros f. destruct (failsSecond w); [auto|].
    intros Hin. apply filter_In in Hin. tauto.
Qed.

(** X12. With no storage fault, a second sweep at the same time changes
    nothing: the store after two sweeps is the store after one. *)
Theorem DoExpiration_twice (w : World) :
  faults w = [] ->
  store (snd (DoExpiration (snd (DoExpiration w))))
  = store (snd (DoExpiration w)).
Proof.
  intros Hf.
  set (fs := filter (fun f => negb (Engine.referenced (keptPages w) f))
                    (favicons (store w))).
  assert (Hout : snd (DoExpiration w)
                 = stepped w (mkStore (keptPages w) fs) []
                     [(sql_delete_pages, [VInt (cutoff w)]);
                      (sql_delete_favicons, [])]).
  { rewrite DoExpiration_outcome. unfold failsNext, failsSecond.
    rewrite Hf. reflexivity. }
  rewrite Hout. rewrite DoExpiration_store by reflexivity.
  assert (Hk : keptPages (stepped w (mkStore (keptPages w) fs) []
                            [(sql_delete_pages, [VInt (cutoff w)]);
                             (sql_delete_favicons, [])])
               = keptPages w).
  { unfold keptPages at 1. unfold cutoff at 1.
    cbn [stepped clock store pages]. fold (cutoff w).
    unfold keptPages. apply filter_twice. }
  rewrite Hk. cbn [stepped store favicons]. subst fs.
  rewrite filter_twice. reflexivity.
Qed.

(** X13. When the storage fails the first DELETE and not the second, the
    page rows are all kept, stale ones included, and the second DELETE
    still runs: the favicon rows left are those that no page row refers
    to. *)
Theorem DoExpiration_first_fault (w : World) :
  failsNext w = true -> failsSecond w = false ->
  pages (store (snd (DoExpiration w))) = pages (store w)
  /\ forall f, In f (favicons (store (snd (DoExpiration w))))
               <-> In f (favicons (store w))
                   /\ ~ referencedBy (pages (store w)) f.
Proof.
  intros Hf1 Hf2. rewrite DoExpiration_outcome, Hf1, Hf2.
  cbn [snd stepped store pages favicons]. split; [reflexivity|].
  intros f. rewrite filter_In, negb_true_iff, <- referenced_iff.
  destruct (Engine.referenced (pages (store w)) f); intuition congruence.
Qed.

(** X14. A visit and a later sweep, with no storage fault: the row of a
    visit at time [t] is still there after a sweep at time [now] when
    [now - kExpireNotVisitedSinceSeconds <= t], and no row with that visit
    time is left when [t < now - kExpireNotVisitedSinceSeconds]. *)
Theorem MarkVisit_then_sweep (url title favicon_url : QString)
        (favicon : QIcon) (w : World) (now : Z) :
  hasSchemeSeparator url ->
  faults w = [] ->
  - 2 ^ 63 <= now - kExpireNotVisitedSinceSeconds < 2 ^ 63 ->
  let visited := snd (MarkVisit url title favicon_url favicon w) in
  let swept := snd (DoExpiration (atTime now visited)) in
  (now - kExpireNotVisitedSinceSeconds <= clock w ->
   exists r, In r (pages (store swept))
             /\ ap_url r = url /\ ap_last_visited r = clock w)
  /\ (clock w < now - kExpireNotVisitedSinceSeconds ->
      forall r, In r (pages (store swept)) -> ap_last_visited r <> clock w).
Proof.
  intros Hs Hf Hrange visited swept.
  destruct (MarkVisit_inserts url title favicon_url favicon w Hs Hf)
    as (_ & Hf1 & fav & Hrows).
  fold visited in Hf1, Hrows.
  assert (Hfa : faults (atTime now visited) = []) by exact Hf1.
  subst swept. rewrite (DoExpiration_store _ Hfa). cbn [pages].
  unfold keptPages, cutoff. cbn [atTime clock store].
  rewrite (wrap64_small _ Hrange), Hrows.
  split.
  - intros Hfresh. eexists. split; [|split].
    + apply filter_In. split; [apply in_or_app; right; left; reflexivity|].
      cbn [ap_last_visited]. apply negb_true_iff, Z.ltb_ge. exact Hfresh.
    + reflexivity.
    + reflexivity.
  - intros Hstale r Hin Heq. apply filter_In in Hin as [_ Hk].
    apply negb_true_iff, Z.ltb_ge in Hk. lia.
Qed.

(** X15. A sweep keeps the favicon table at one row per URL at most,
    whatever the faults. *)
Theorem DoExpiration_one_row_per_url (w : World) :
  onePerUrl (store w) -> onePerUrl (store (snd (DoExpiration w))).
Proof.
  intros Hone url. rewrite DoExpiration_outcome.
  cbn [snd stepped store]. unfold hitsOf. cbn [favicons].
  destruct (failsSecond w); [exact (Hone url)|].
  set (hit := Engine.faviconHit (VInt (HashString url)) (VStr url)).
  set (keep := fun f => negb (Engine.referenced _ f)).
  assert (Hle : forall l, (List.length (filter hit (filter keep l))
                           <= List.length (filter hit l))%nat).
  { induction l as [|x l IH]; simpl; [lia|].
    destruct (keep x), (hit x) eqn:Hx; simpl; rewrite ?Hx; simpl; lia. }
  specialize (Hone url). unfold hitsOf in Hone. fold hit in Hone.
  specialize (Hle (favicons (store w))). lia.
Qed.

End SweepAny.

(** ** The cached favicon *)

Section Cached.
Context `{Externals}.

Lemma run_select_favicon_data :
  Engine.run sql_select_favicon_data = Engine.selectFaviconData.
Proof. reflexivity. Qed.

Lemma CachedFavicon_unfold (url : QString) (w : World) :
  url <> [] ->
  CachedFavicon url w
  = match cached (faviconKey url) w with
    | Some pixmap => (iconFromData pixmap, w)
    | None =>
        let qr := ExecSingleParam sql_select_favicon_data (lookupParams url) w in
        if recordIsEmpty (snd (fst qr)) then (nullIcon, snd qr)
        else
          (iconFromData (toByteArray (valueAt 0 (snd (fst qr)))),
           snd (pixmapCacheInsert (faviconKey url)
                  (toByteArray (valueAt 0 (snd (fst qr)))) (snd qr)))
    end.
Proof.
  intros Hu. destruct url as [|c u]; [congruence|].
  unfold CachedFavicon, cached, faviconKey, lookupParams.
  cbn [QStr.isEmpty QStr.nonEmpty negb].
  unfold bind at 1. unfold pixmapCacheFind.
  destruct (option_map snd _) as [pm|]; [reflexivity|].
  unfold bind at 1.
  destruct (ExecSingleParam _ _ w) as [[q rec] w1]. cbn [fst snd].
  destruct (recordIsEmpty rec); reflexivity.
Qed.

Lemma CachedFavicon_hit (url : QString) (w : World) (pixmap : QByteArray) :
  url <> [] -> cached (faviconKey url) w = Some pixmap ->
  CachedFavicon url w = (iconFromData pixmap, w).
Proof.
  intros Hu Hc. rewrite (CachedFavicon_unfold url w Hu), Hc. reflexivity.
Qed.

Lemma CachedFavicon_load (url : QString) (w : World) (f : FaviconRow)
      (more : list FaviconRow) :
  url <> [] -> cached (faviconKey url) w = None ->
  failsNext w = false -> hitsOf url (store w) = f :: more ->
  CachedFavicon url w
  = (iconFromData (f_data f),
     mkWorld (store w) ((faviconKey url, f_data f) :: pixmapCache w) (clock w)
             (tl (faults w))
             (trace w ++ [(sql_select_favicon_data, lookupParams url)])).
Proof.
  intros Hu Hc Hf Hhits. rewrite (CachedFavicon_unfold url w Hu), Hc.
  unfold ExecSingleParam, bind, ret.
  erewrite execute_ok; [| exact Hf | rewrite run_select_favicon_data; reflexivity].
  cbn [Engine.ansRows resultRows fst snd].
  unfold hitsOf in Hhits. rewrite Hhits. reflexivity.
Qed.

Lemma CachedFavicon_none (url : QString) (w : World) :
  url <> [] -> cached (faviconKey url) w = None ->
  failsNext w = true \/ hitsOf url (store w) = [] ->
  CachedFavicon url w
  = (nullIcon,
     stepped w (store w) (tl (faults w))
             [(sql_select_favicon_data, lookupParams url)]).
Proof.
  intros Hu Hc Hmiss. rewrite (CachedFavicon_unfold url w Hu), Hc.
  unfold ExecSingleParam, bind, ret.
  destruct (failsNext w) eqn:Hf.
  - rewrite execute_failed by exact Hf. reflexivity.
  - destruct Hmiss as [Hbad|Hhits]; [discriminate|].
    erewrite execute_ok; [| exact Hf | rewrite run_select_favicon_data; reflexivity].
    cbn [Engine.ansRows resultRows fst snd].
    unfold hitsOf in Hhits. rewrite Hhits. reflexivity.
Qed.

Lemma cached_inserted (key : QString) (pixmap : QByteArray) (w : World)
      (st : Store) (fs : list bool) (tr : list (QString * list QVariant)) :
  cached key (mkWorld st ((key, pixmap) :: pixmapCache w) (clock w) fs tr)
  = Some pixmap.
Proof.
  unfold cached. cbn [pixmapCache find fst]. rewrite qstr_eqb_refl. reflexivity.
Qed.

(** X16. Whatever the URL and the faults, [CachedFavicon] leaves the store
    and the clock as they were and issues at most one statement, a SELECT;
    the pixmap cache keeps every entry it had. *)
Theorem CachedFavicon_reads_only (url : QString) (w : World) :
  store (snd (CachedFavicon url w)) = store w
  /\ clock (snd (CachedFavicon url w)) = clock w
  /\ (exists added, pixmapCache (snd (CachedFavicon url w))
                    = added ++ pixmapCache w)
  /\ (trace (snd (CachedFavicon url w)) = trace w
      \/ trace (snd (CachedFavicon url w))
         = trace w ++ [(sql_select_favicon_data, lookupParams url)]).
Proof.
  destruct url as [|c u].
  { cbn. repeat split; [exists []; reflexivity | left; reflexivity]. }
  assert (Hu : c :: u <> []) by discriminate.
  destruct (cached (faviconKey (c :: u)) w) as [pm|] eqn:Hc.
  { rewrite (CachedFavicon_hit _ _ pm Hu Hc). cbn [snd].
    repeat split; [exists []; reflexivity | left; reflexivity]. }
  destruct (failsNext w) eqn:Hf.
  { rewrite (CachedFavicon_none _ _ Hu Hc (or_introl Hf)).
    cbn [snd stepped store clock pixmapCache trace].
    repeat split; [exists []; reflexivity | right; reflexivity]. }
  destruct (hitsOf (c :: u) (store w)) as [|f more] eqn:Hhits.
  { rewrite (CachedFavicon_none _ _ Hu Hc (or_intror Hhits)).
    cbn [snd stepped store clock pixmapCache trace].
    repeat split; [exists []; reflexivity | right; reflexivity]. }
  rewrite (CachedFavicon_load _ _ f more Hu Hc Hf Hhits).
  cbn [snd store clock pixmapCache trace].
  repeat split; [eexists [_]; reflexivity | right; reflexivity].
Qed.

(** X17. A favicon that is stored and not yet cached is read from the store
    once: the first call returns the icon of the stored bytes, and a second
    call returns the same icon from the pixmap cache, issuing no statement
    and changing nothing, even if the storage would fail. *)
Theorem CachedFavicon_second_from_cache (url : QString) (w : World)
        (f : FaviconRow) :
  url <> [] ->
  cached (faviconKey url) w = None ->
  failsNext w = false ->
  storedFavicon url (store w) = Some f ->
  fst (CachedFavicon url w) = iconFromData (f_data f)
  /\ trace (snd (CachedFavicon url w))
     = trace w ++ [(sql_select_favicon_data, lookupParams url)]
  /\ CachedFavicon url (snd (CachedFavicon url w))
     = (iconFromData (f_data f), snd (CachedFavicon url w)).
Proof.
  intros Hu Hc Hf Hst. unfold storedFavicon in Hst.
  destruct (hitsOf url (store w)) as [|f0 more] eqn:Hhits; [discriminate|].
  injection Hst as ->.
  rewrite (CachedFavicon_load url w f more Hu Hc Hf Hhits). cbn [fst snd trace].
  split; [reflexivity|]. split; [reflexivity|].
  apply CachedFavicon_hit; [exact Hu | apply cached_inserted].
Qed.

(** X18. When the favicon is not cached and the lookup gives no row, because
    none is stored or because the storage fails, [CachedFavicon] returns the
    null icon and caches nothing, so the next call asks the storage
    again. *)
Theorem CachedFavicon_miss (url : QString) (w : World) :
  url <> [] ->
  cached (faviconKey url) w = None ->
  failsNext w = true \/ storedFavicon url (store w) = None ->
  fst (CachedFavicon url w) = nullIcon
  /\ pixmapCache (snd (CachedFavicon url w)) = pixmapCache w
  /\ trace (snd (CachedFavicon url w))
     = trace w ++ [(sql_select_favicon_data, lookupParams url)].
Proof.
  intros Hu Hc Hmiss.
  assert (Hm : failsNext w = true \/ hitsOf url (store w) = []).
  { destruct Hmiss as [Hf|Hst]; [left; exact Hf|right].
    unfold storedFavicon in Hst.
    destruct (hitsOf url (store w)); [reflexivity|discriminate]. }
  rewrite (CachedFavicon_none url w Hu Hc Hm). repeat split.
Qed.

(** X19. The pixmap cache is not refreshed by an upsert: once a favicon is
    cached, [CachedFavicon] after any [FaviconId] for the same URL still
    returns the icon of the cached bytes and issues no statement, whatever
    the upsert stored. *)
Theorem CachedFavicon_stale_after_upsert (url : QString) (favicon : QIcon)
        (w : World) (pixmap : QByteArray) :
  url <> [] ->
  cached (faviconKey url) w = Some pixmap ->
  CachedFavicon url (snd (FaviconId url favicon w))
  = (iconFromData pixmap, snd (FaviconId url favicon w)).
Proof.
  intros Hu Hc. apply CachedFavicon_hit; [exact Hu|].
  destruct (FaviconId_effect url favicon w)
    as (o & fs & later & stmts & Heq & _ & _).
  rewrite Heq. exact Hc.
Qed.

(** X20. Upsert, then fetch: for a non-empty URL that is not cached and has
    no stored row with the icon's fingerprint, with no storage fault,
    [CachedFavicon] after [FaviconId] returns the icon of the bytes
    [FaviconId] encoded. *)
Theorem FaviconId_then_CachedFavicon (url : QString) (favicon : QIcon)
        (w : World) :
  url <> [] -> isNull favicon = false -> faults w = [] ->
  cached (faviconKey url) w = None ->
  (forall f, storedFavicon url (store w) = Some f ->
             f_data_key f <> cacheKey favicon) ->
  fst (CachedFavicon url (snd (FaviconId url favicon w)))
  = iconFromData (pngData favicon).
Proof.
  intros Hu Hn Hf Hc Hkey.
  destruct (hitsOf url (store w)) as [|f more] eqn:Hhits.
  - rewrite (FaviconId_insert url favicon w Hu Hn Hf Hhits). cbn [snd].
    rewrite (CachedFavicon_load url _
               (mkFavicon (Engine.freshId (map f_id (favicons (store w)))) url
                          (HashString url) (cacheKey favicon) (pngData favicon))
               [] Hu); [reflexivity | exact Hc | reflexivity |].
    unfold hitsOf in *. cbn [store favicons].
    rewrite filter_app, Hhits. cbn [filter app].
    rewrite faviconHit_own. reflexivity.
  - assert (Hk : cacheKey favicon <> f_data_key f).
    { intros Heq. apply (Hkey f); [|congruence].
      unfold storedFavicon. rewrite Hhits. reflexivity. }
    rewrite (FaviconId_changed url favicon w f more Hu Hn Hf Hhits Hk). cbn [snd].
    rewrite (CachedFavicon_load url _
               (mkFavicon (f_id f) (f_url f) (f_url_hash f)
                          (cacheKey favicon) (pngData favicon))
               (faviconsUpdated favicon (f_id f) more) Hu);
      [reflexivity | exact Hc | reflexivity |].
    unfold hitsOf in *. cbn [store favicons].
    rewrite filter_map_same.
    + rewrite Hhits. cbn [map]. rewrite Z.eqb_refl. reflexivity.
    + intros x. destruct (f_id x =? f_id f); reflexivity.
Qed.

End Cached.

(** ** The suggestion loop and the search string *)

Lemma dropSpaces_blank_app (ws s : QString) :
  forallb QStr.isSpace ws = true ->
  QStr.dropSpaces (ws ++ s) = QStr.dropSpaces s.
Proof.
  induction ws as [|c ws IH]; intros Hb; [reflexivity|].
  cbn [forallb] in Hb. apply andb_prop in Hb as [Hc Hws].
  cbn [app QStr.dropSpaces]. rewrite Hc. auto.
Qed.

Lemma dropSpaces_app_blank (s ws : QString) :
  forallb QStr.isSpace ws = true ->
  QStr.dropSpaces (s ++ ws)
  = match QStr.dropSpaces s with
    | [] => []
    | c :: r => (c :: r) ++ ws
    end.
Proof.
  intros Hb. induction s as [|c s IH].
  - cbn [app QStr.dropSpaces]. apply dropSpaces_blank. exact Hb.
  - cbn [app QStr.dropSpaces]. destruct (QStr.isSpace c); [exact IH|reflexivity].
Qed.

Lemma forallb_rev {A} (p : A -> bool) (l : list A) :
  forallb p l = true -> forallb p (rev l) = true.
Proof.
  rewrite !forallb_forall. intros Hall x Hin. apply Hall, in_rev. exact Hin.
Qed.

Lemma trimmed_surrounded (before text after : QString) :
  forallb QStr.isSpace before = true ->
  forallb QStr.isSpace after = true ->
  QStr.trimmed (before ++ text ++ after) = QStr.trimmed text.
Proof.
  intros Hb Ha. unfold QStr.trimmed.
  rewrite (dropSpaces_blank_app before _ Hb), (dropSpaces_app_blank text after Ha).
  destruct (QStr.dropSpaces text) as [|c r]; [reflexivity|].
  rewrite rev_app_distr.
  rewrite (dropSpaces_blank_app (rev after) _ (forallb_rev _ _ Ha)).
  reflexivity.
Qed.

Section SuggestExtras.
Context `{Externals}.

Lemma CachedFavicon_store (url : QString) (w : World) :
  store (snd (CachedFavicon url w)) = store w.
Proof.
  destruct url as [|c u]; [reflexivity|].
  assert (Hu : c :: u <> []) by discriminate.
  destruct (cached (faviconKey (c :: u)) w) as [pm|] eqn:Hc.
  { rewrite (CachedFavicon_hit _ _ pm Hu Hc). reflexivity. }
  destruct (failsNext w) eqn:Hf.
  { rewrite (CachedFavicon_none _ _ Hu Hc (or_introl Hf)). reflexivity. }
  destruct (hitsOf (c :: u) (store w)) as [|f more] eqn:Hhits.
  { rewrite (CachedFavicon_none _ _ Hu Hc (or_intror Hhits)). reflexivity. }
  rewrite (CachedFavicon_load _ _ f more Hu Hc Hf Hhits). reflexivity.
Qed.

(** X21. The loop over the result rows of [AutocompleteSuggest] adds one
    entry per row, in the order of the rows, with the row's [url] and
    [title] columns as strings, after the entries it started with; fetching
    the icons leaves the store as it was, whatever the faults. *)
Theorem appendPages_one_per_row (rows : list QSqlRecord)
        (acc : list AutocompletePage) (w : World) :
  map (fun p => (page_url p, page_title p)) (fst (appendPages rows acc w))
  = map (fun p => (page_url p, page_title p)) acc
    ++ map (fun r => (toString (value (qs "url") r),
                      toString (value (qs "title") r))) rows
  /\ store (snd (appendPages rows acc w)) = store w.
Proof.
  revert acc w. induction rows as [|r rows IH]; intros acc w.
  - cbn. rewrite app_nil_r. split; reflexivity.
  - cbn [appendPages]. unfold bind.
    pose proof (CachedFavicon_store (toString (value (qs "favicon_url") r)) w)
      as Hst.
    destruct (CachedFavicon (toString (value (qs "favicon_url") r)) w)
      as [icon w1].
    cbn [snd] in Hst.
    destruct (IH (acc ++ [mkAutocompletePage (toString (value (qs "url") r))
                                             (toString (value (qs "title") r))
                                             icon]) w1) as [Hmap Hstore].
    rewrite Hmap, Hstore, Hst. split; [|reflexivity].
    rewrite map_app. cbn [map page_url page_title].
    rewrite <- app_assoc. reflexivity.
Qed.

(** X22. Whitespace around the text does not change the search string:
    [to_search] of the text with whitespace before and after it is
    [to_search] of the text. *)
Theorem to_search_ignores_surrounding_space (before text after : QString) :
  forallb QStr.isSpace before = true ->
  forallb QStr.isSpace after = true ->
  to_search (before ++ text ++ after) = to_search text.
Proof.
  intros Hb Ha. unfold to_search.
  rewrite (trimmed_surrounded before text after Hb Ha). reflexivity.
Qed.

(** X23. Whatever the text, the count and the faults, [AutocompleteSuggest]
    leaves the store and the clock as they were and only adds to the trace
    of statements. *)
Theorem AutocompleteSuggest_reads_only (text : QString) (count : Z) (w : World) :
  store (snd (AutocompleteSuggest text count w)) = store w
  /\ clock (snd (AutocompleteSuggest text count w)) = clock w
  /\ exists stmts,
       trace (snd (AutocompleteSuggest text count w)) = trace w ++ stmts.
Proof.
  destruct (QStr.length (to_search text) =? 1) eqn:Hlen.
  - unfold AutocompleteSuggest. rewrite Hlen. cbn [ret snd].
    repeat split. exists []. now rewrite app_nil_r.
  - rewrite (AutocompleteSuggest_refused text count w Hlen).
    cbn [snd store clock trace]. repeat split. eexists. reflexivity.
Qed.

End SuggestExtras.

(** ** The further properties at concrete inputs *)

Example stale_icon_after_upsert :
  option_map f_data
    (storedFavicon exampleFaviconUrl
       (store (snd (FaviconId exampleFaviconUrl changedIcon cachedWorld))))
  = Some (qs "png-b")
  /\ fst (CachedFavicon exampleFaviconUrl
            (snd (FaviconId exampleFaviconUrl changedIcon cachedWorld)))
     = iconFromData (qs "png-old").
Proof. split; reflexivity. Qed.

Lemma exampleFaviconUrl_nonempty : exampleFaviconUrl <> [].
Proof. discriminate. Defined.

Lemma iconWorld_onePerUrl : onePerUrl (store iconWorld).
Proof.
  intros url. unfold hitsOf. cbn [iconWorld store favicons filter].
  destruct (Engine.faviconHit _ _ _); cbn; lia.
Defined.

Lemma FaviconId_insert_fault_witness :
  exampleFaviconUrl <> []
  /\ isNull exampleIcon = false
  /\ failsNext (withFaults [false; true] (emptyWorld 5000)) = false
  /\ failsSecond (withFaults [false; true] (emptyWorld 5000)) = true
  /\ hitsOf exampleFaviconUrl (store (withFaults [false; true] (emptyWorld 5000))) = []
  /\ fst (FaviconId exampleFaviconUrl exampleIcon
            (withFaults [false; true] (emptyWorld 5000))) = VNull
  /\ store (snd (FaviconId exampleFaviconUrl exampleIcon
                   (withFaults [false; true] (emptyWorld 5000))))
     = store (withFaults [false; true] (emptyWorld 5000)).
Proof.
  split; [exact exampleFaviconUrl_nonempty|]. do 4 (split; [reflexivity|]).
  destruct (FaviconId_insert_fault exampleFaviconUrl exampleIcon
              (withFaults [false; true] (emptyWorld 5000))
              exampleFaviconUrl_nonempty eq_refl eq_refl eq_refl eq_refl)
    as (Hnull & Hstore & _).
  split; [exact Hnull | exact Hstore].
Defined.

Lemma FaviconId_update_fault_witness :
  exampleFaviconUrl <> []
  /\ isNull changedIcon = false
  /\ failsNext (withFaults [false; true] iconWorld) = false
  /\ failsSecond (withFaults [false; true] iconWorld) = true
  /\ storedFavicon exampleFaviconUrl (store (withFaults [false; true] iconWorld))
     = Some (mkFavicon 1 exampleFaviconUrl (HashString exampleFaviconUrl) 7
                       (qs "png-a"))
  /\ cacheKey changedIcon <> 7
  /\ fst (FaviconId exampleFaviconUrl changedIcon
            (withFaults [false; true] iconWorld)) = VInt 1
  /\ store (snd (FaviconId exampleFaviconUrl changedIcon
                   (withFaults [false; true] iconWorld)))
     = store (withFaults [false; true] iconWorld).
Proof.
  assert (Hk : cacheKey changedIcon <> 7) by discriminate.
  assert (Hst : storedFavicon exampleFaviconUrl
                  (store (withFaults [false; true] iconWorld))
                = Some (mkFavicon 1 exampleFaviconUrl
                                  (HashString exampleFaviconUrl) 7 (qs "png-a")))
    by reflexivity.
  split; [exact exampleFaviconUrl_nonempty|]. do 3 (split; [reflexivity|]).
  split; [exact Hst|]. split; [exact Hk|].
  destruct (FaviconId_update_fault exampleFaviconUrl changedIcon
              (withFaults [false; true] iconWorld)
              (mkFavicon 1 exampleFaviconUrl (HashString exampleFaviconUrl) 7
                         (qs "png-a"))
              exampleFaviconUrl_nonempty eq_refl eq_refl eq_refl Hst Hk)
    as (Hid & Hstore & _).
  split; [exact Hid | exact Hstore].
Defined.

Lemma FaviconId_one_row_per_url_witness :
  onePerUrl (store iconWorld)
  /\ onePerUrl (store (snd (FaviconId exampleUrl exampleIcon iconWorld))).
Proof.
  split; [exact iconWorld_onePerUrl|].
  exact (FaviconId_one_row_per_url exampleUrl exampleIcon iconWorld
                                   iconWorld_onePerUrl).
Defined.

Lemma MarkVisit_update_fault_witness :
  hasSchemeSeparator exampleUrl
  /\ failsNext (snd (FaviconId [] nullIcon (withFaults [true] (emptyWorld 5000))))
     = true
  /\ MarkVisit exampleUrl exampleTitle [] nullIcon (withFaults [true] (emptyWorld 5000))
     = (false,
        mkWorld (mkStore [] []) [] 5000 []
                [(sql_update_page, updateParams exampleUrl exampleTitle VNull 5000)]).
Proof.
  split; [exact exampleUrl_scheme|]. split; [reflexivity|].
  destruct (MarkVisit_update_fault exampleUrl exampleTitle [] nullIcon
              (withFaults [true] (emptyWorld 5000)) exampleUrl_scheme eq_refl)
    as (Hfalse & _).
  reflexivity.
Defined.

Lemma MarkVisit_insert_fault_witness :
  hasSchemeSeparator exampleUrl
  /\ failsNext (snd (FaviconId [] nullIcon
                       (withFaults [false; true] (emptyWorld 5000)))) = false
  /\ failsSecond (snd (FaviconId [] nullIcon
                         (withFaults [false; true] (emptyWorld 5000)))) = true
  /\ fst (MarkVisit exampleUrl exampleTitle [] nullIcon
            (withFaults [false; true] (emptyWorld 5000))) = false
  /\ store (snd (MarkVisit exampleUrl exampleTitle [] nullIcon
                   (withFaults [false; true] (emptyWorld 5000))))
     = mkStore [] [].
Proof.
  split; [exact exampleUrl_scheme|]. split; [reflexivity|]. split; [reflexivity|].
  destruct (MarkVisit_insert_fault exampleUrl exampleTitle [] nullIcon
              (withFaults [false; true] (emptyWorld 5000)) exampleUrl_scheme
              eq_refl eq_refl) as (Hfalse & Hstore & _).
  split; [exact Hfalse | exact Hstore].
Defined.

Lemma visitedOnce_frecency : Forall frecencyOk (pages (store visitedOnce)).
Proof. constructor; [reflexivity | constructor]. Defined.

Lemma MarkVisit_keeps_frecency_witness :
  - 2 ^ 63 <= clock visitedOnce + kVisitTimeWorthSeconds < 2 ^ 63
  /\ Forall frecencyOk (pages (store visitedOnce))
  /\ Forall frecencyOk
       (pages (store (snd (MarkVisit exampleUrl exampleTitle exampleFaviconUrl
                                     exampleIcon visitedOnce)))).
Proof.
  assert (Hrange : - 2 ^ 63 <= clock visitedOnce + kVisitTimeWorthSeconds < 2 ^ 63)
    by (cbn; lia).
  split; [exact Hrange|]. split; [exact visitedOnce_frecency|].
  exact (MarkVisit_keeps_frecency exampleUrl exampleTitle exampleFaviconUrl
                                  exampleIcon visitedOnce Hrange
                                  visitedOnce_frecency).
Defined.

Lemma MarkVisit_schemeless_witness :
  fst (MarkVisit exampleUrl exampleTitle [] nullIcon (emptyWorld 5000)) = true
  /\ exists row scheme,
       pages (store (snd (MarkVisit exampleUrl exampleTitle [] nullIcon
                                    (emptyWorld 5000))))
       = pages (store (emptyWorld 5000)) ++ [row]
       /\ ap_url row = exampleUrl
       /\ exampleUrl = scheme ++ qs "://" ++ ap_schemeless_url row
       /\ forall pre post,
            exampleUrl = pre ++ qs "://" ++ post ->
            (List.length scheme <= List.length pre)%nat.
Proof.
  split; [reflexivity|].
  exact (MarkVisit_schemeless exampleUrl exampleTitle [] nullIcon
                              (emptyWorld 5000) eq_refl).
Defined.

Lemma MarkVisit_one_row_per_url_witness :
  onePerUrl (store iconWorld)
  /\ onePerUrl
       (store (snd (MarkVisit exampleUrl exampleTitle exampleFaviconUrl
                              changedIcon iconWorld))).
Proof.
  split; [exact iconWorld_onePerUrl|].
  exact (MarkVisit_one_row_per_url exampleUrl exampleTitle exampleFaviconUrl
                                   changedIcon iconWorld iconWorld_onePerUrl).
Defined.

Lemma DoExpiration_twice_witness :
  faults sweepWorld = []
  /\ store (snd (DoExpiration (snd (DoExpiration sweepWorld))))
     = store (snd (DoExpiration sweepWorld)).
Proof.
  split; [reflexivity|].
  exact (DoExpiration_twice sweepWorld eq_refl).
Defined.

Lemma DoExpiration_first_fault_witness :
  failsNext (withFaults [true] sweepWorld) = true
  /\ failsSecond (withFaults [true] sweepWorld) = false
  /\ pages (store (snd (DoExpiration (withFaults [true] sweepWorld))))
     = pages (store (withFaults [true] sweepWorld)).
Proof.
  split; [reflexivity|]. split; [reflexivity|].
  destruct (DoExpiration_first_fault (withFaults [true] sweepWorld)
                                     eq_refl eq_refl) as (Hpages & _).
  exact Hpages.
Defined.

Lemma MarkVisit_then_sweep_witness :
  hasSchemeSeparator exampleUrl
  /\ faults (emptyWorld 5000) = []
  /\ - 2 ^ 63 <= 5500 - kExpireNotVisitedSinceSeconds < 2 ^ 63
  /\ 5500 - kExpireNotVisitedSinceSeconds <= clock (emptyWorld 5000)
  /\ exists r,
       In r (pages (store (snd (DoExpiration
               (atTime 5500
                  (snd (MarkVisit exampleUrl exampleTitle [] nullIcon
                                  (emptyWorld 5000))))))))
       /\ ap_url r = exampleUrl /\ ap_last_visited r = clock (emptyWorld 5000).
Proof.
  assert (Hrange : - 2 ^ 63 <= 5500 - kExpireNotVisitedSinceSeconds < 2 ^ 63)
    by (cbn; lia).
  assert (Hfresh : 5500 - kExpireNotVisitedSinceSeconds <= clock (emptyWorld 5000))
    by (cbn; lia).
  split; [exact exampleUrl_scheme|]. split; [reflexivity|].
  split; [exact Hrange|]. split; [exact Hfresh|].
  destruct (MarkVisit_then_sweep exampleUrl exampleTitle [] nullIcon
              (emptyWorld 5000) 5500 exampleUrl_scheme eq_refl Hrange)
    as (Hkept & _).
  exact (Hkept Hfresh).
Defined.

Lemma DoExpiration_one_row_per_url_witness :
  onePerUrl (store iconWorld)
  /\ onePerUrl (store (snd (DoExpiration iconWorld))).
Proof.
  split; [exact iconWorld_onePerUrl|].
  exact (DoExpiration_one_row_per_url iconWorld iconWorld_onePerUrl).
Defined.

Lemma CachedFavicon_second_from_cache_witness :
  exampleFaviconUrl <> []
  /\ cached (faviconKey exampleFaviconUrl) iconWorld = None
  /\ failsNext iconWorld = false
  /\ storedFavicon exampleFaviconUrl (store iconWorld)
     = Some (mkFavicon 1 exampleFaviconUrl (HashString exampleFaviconUrl) 7
                       (qs "png-a"))
  /\ CachedFavicon exampleFaviconUrl (snd (CachedFavicon exampleFaviconUrl iconWorld))
     = (iconFromData (qs "png-a"), snd (CachedFavicon exampleFaviconUrl iconWorld)).
Proof.
  assert (Hst : storedFavicon exampleFaviconUrl (store iconWorld)
                = Some (mkFavicon 1 exampleFaviconUrl
                                  (HashString exampleFaviconUrl) 7 (qs "png-a")))
    by reflexivity.
  split; [exact exampleFaviconUrl_nonempty|]. do 2 (split; [reflexivity|]).
  split; [exact Hst|].
  destruct (CachedFavicon_second_from_cache exampleFaviconUrl iconWorld
              (mkFavicon 1 exampleFaviconUrl (HashString exampleFaviconUrl) 7
                         (qs "png-a"))
              exampleFaviconUrl_nonempty eq_refl eq_refl Hst)
    as (_ & _ & Hsecond).
  exact Hsecond.
Defined.

Lemma CachedFavicon_miss_witness :
  exampleFaviconUrl <> []
  /\ cached (faviconKey exampleFaviconUrl) (emptyWorld 5000) = None
  /\ storedFavicon exampleFaviconUrl (store (emptyWorld 5000)) = None
  /\ fst (CachedFavicon exampleFaviconUrl (emptyWorld 5000)) = nullIcon
  /\ pixmapCache (snd (CachedFavicon exampleFaviconUrl (emptyWorld 5000))) = [].
Proof.
  split; [exact exampleFaviconUrl_nonempty|]. do 2 (split; [reflexivity|]).
  destruct (CachedFavicon_miss exampleFaviconUrl (emptyWorld 5000)
              exampleFaviconUrl_nonempty eq_refl (or_intror eq_refl))
    as (Hnull & Hcache & _).
  split; [exact Hnull | exact Hcache].
Defined.

Lemma CachedFavicon_stale_after_upsert_witness :
  exampleFaviconUrl <> []
  /\ cached (faviconKey exampleFaviconUrl) cachedWorld = Some (qs "png-old")
  /\ CachedFavicon exampleFaviconUrl
       (snd (FaviconId exampleFaviconUrl changedIcon cachedWorld))
     = (iconFromData (qs "png-old"),
        snd (FaviconId exampleFaviconUrl changedIcon cachedWorld)).
Proof.
  split; [exact exampleFaviconUrl_nonempty|]. split; [reflexivity|].
  exact (CachedFavicon_stale_after_upsert exampleFaviconUrl changedIcon
           cachedWorld (qs "png-old") exampleFaviconUrl_nonempty eq_refl).
Defined.

Lemma FaviconId_then_CachedFavicon_witness :
  exampleFaviconUrl <> []
  /\ isNull changedIcon = false
  /\ faults iconWorld = []
  /\ cached (faviconKey exampleFaviconUrl) iconWorld = None
  /\ fst (CachedFavicon exampleFaviconUrl
            (snd (FaviconId exampleFaviconUrl changedIcon iconWorld)))
     = iconFromData (pngData changedIcon).
Proof.
  split; [exact exampleFaviconUrl_nonempty|]. do 3 (split; [reflexivity|]).
  apply (FaviconId_then_CachedFavicon exampleFaviconUrl changedIcon iconWorld
           exampleFaviconUrl_nonempty eq_refl eq_refl eq_refl).
  intros f Hst. injection Hst as <-. discriminate.
Defined.

Lemma to_search_ignores_surrounding_space_witness :
  forallb QStr.isSpace (qs "  ") = true
  /\ forallb QStr.isSpace [space; tab] = true
  /\ to_search (qs "  " ++ qs "foo bar" ++ [space; tab]) = to_search (qs "foo bar").
Proof.
  split; [reflexivity|]. split; [reflexivity|].
  exact (to_search_ignores_surrounding_space (qs "  ") (qs "foo bar")
                                             [space; tab] eq_refl eq_refl).
Defined.


